(** * mutableware: a mutable middleware container

    A shallow embedding of the Go package [mutableware] (the variant whose
    handlers expose both [Validate] and [Handle]) and of the pieces of the Go
    runtime and standard library it relies on: [uint64] arithmetic, the
    [errors] package, slices with a length and a capacity, and
    [context.Context] values. *)

From Stdlib Require Import Ascii.
From stdpp Require Import base numbers pretty strings list sorting.

(** ** Go errors

    The errors of the standard library are pointers: [errors.New] and
    [fmt.Errorf] without [%w] give a [*errorString], [fmt.Errorf] with one
    [%w] a [*wrapError], with several [%w] a [*wrapErrors], and
    [errors.Join] a [*joinError].  A leaf carries the address that makes it
    that one value; interior nodes are told apart by their contents.  A
    handler may also return a value of an error type of its own: a
    [valueError] is such a value, of a type without [Unwrap] and [Is]
    methods that is comparable or, as a struct with a slice field, is not;
    it has the name of its type and its message. *)

#[warnings="-register-all"]
Inductive goerror : Type :=
| errorString (addr : N) (s : string)
| wrapError (msg : string) (err : goerror)
| wrapErrors (msg : string) (errs : list goerror)
| joinError (errs : list goerror)
| valueError (typ : string) (comparable : bool) (s : string).

(** The interface type [error]: [None] is [nil]. *)
Definition error : Type := option goerror.

(** Whether the two errors are the same value. *)
Fixpoint goerror_eqb (a b : goerror) : bool :=
  let fix all_eqb (l l' : list goerror) : bool :=
    match l, l' with
    | [], [] => true
    | x :: l, y :: l' => goerror_eqb x y && all_eqb l l'
    | _, _ => false
    end in
  match a, b with
  | errorString x s, errorString y t => N.eqb x y && String.eqb s t
  | wrapError m e, wrapError m' e' => String.eqb m m' && goerror_eqb e e'
  | wrapErrors m es, wrapErrors m' es' => String.eqb m m' && all_eqb es es'
  | joinError es, joinError es' => all_eqb es es'
  | valueError ty c s, valueError ty' c' t =>
      String.eqb ty ty' && Bool.eqb c c' && String.eqb s t
  | _, _ => false
  end.

(** Whether the type of the error is comparable: pointers are. *)
Definition comparable (e : goerror) : bool :=
  match e with
  | valueError _ c _ => c
  | _ => true
  end.

(** The loop of [errors.is]: the error itself, when the type of the target
    is comparable and [err == target], then what the error unwraps to. *)
Fixpoint is_ (err target : goerror) : bool :=
  (comparable target && goerror_eqb err target) ||
  match err with
  | errorString _ _ => false
  | wrapError _ e => is_ e target
  | wrapErrors _ es => existsb (fun e => is_ e target) es
  | joinError es => existsb (fun e => is_ e target) es
  | valueError _ _ _ => false
  end.

(** [errors.Is(err, target)]. *)
Definition errors_Is (err target : error) : bool :=
  match err, target with
  | Some e, Some t => is_ e t
  | None, None => true
  | _, _ => false
  end.

Definition newline : string := String "010"%char EmptyString.

(** The [Error()] method. *)
Fixpoint Error (e : goerror) : string :=
  match e with
  | errorString _ s => s
  | wrapError m _ => m
  | wrapErrors m _ => m
  | joinError es => String.concat newline (map Error es)
  | valueError _ _ s => s
  end.


(** The two package-level sentinels, each the result of one [errors.New]. *)
Definition ErrValidate : goerror := errorString 1 "validateError".
Definition ErrHandle : goerror := errorString 2 "handleError".

(** ** Handler identities *)

(** [HandlerID] is a [uint64]; addition wraps at [2^64]. *)
Definition HandlerID : Type := N.
Definition uint64_modulus : N := 2 ^ 64.
Definition uint64_add (a b : N) : N := ((a + b) mod uint64_modulus)%N.

Record HandlerInfo : Type := mkInfo { ID : HandlerID; Name : string }.

Global Instance HandlerInfo_eq_dec : EqDecision HandlerInfo.
Proof. solve_decision. Defined.

(** [HandlerInfo.String]: ["%d(%s)"] with a name, ["%d"] without. *)
Definition HandlerInfo_String (h : HandlerInfo) : string :=
  if decide (Name h ≠ EmptyString)
  then pretty (ID h) +:+ "(" +:+ Name h +:+ ")"
  else pretty (ID h).

(** [fmt.Errorf("%w handler=%s %w", sentinel, info, err)]: a [*wrapErrors]
    whose message prints the three operands and which unwraps to the two
    errors in argument order. *)
Definition Errorf_handler (sentinel : goerror) (info : HandlerInfo) (err : goerror) : goerror :=
  wrapErrors (Error sentinel +:+ " handler=" +:+ HandlerInfo_String info +:+ " " +:+ Error err)
             [sentinel; err].

(** ** Slices of handler infos, on a heap of backing arrays

    A slice value is a pointer to a backing array, a length and a capacity;
    the arrays live on the heap, where two slices may share one.  An array
    is stored with all its [cap] cells, unused ones holding the zero value. *)

Record sliceRef : Type := mkSlice { ptr : nat; len : nat; cap : nat }.

Abbreviation Heap := (list (list HandlerInfo)).

Definition zeroInfo : HandlerInfo := mkInfo 0%N EmptyString.

(** What a slice shows: the first [len] cells of its array. *)
Definition view (h : Heap) (s : sliceRef) : list HandlerInfo :=
  take (len s) (default [] (h !! ptr s)).

(** A fresh array. *)
Definition alloc (h : Heap) (cells : list HandlerInfo) : nat * Heap :=
  (length h, h ++ [cells]).

(** The composite literal [[]HandlerInfo{info}]: length and capacity 1. *)
Definition literal1 (h : Heap) (info : HandlerInfo) : sliceRef * Heap :=
  let '(p, h') := alloc h [info] in (mkSlice p 1 1, h').

(** The runtime's [nextslicecap(newLen, oldCap)] below its threshold of 256
    elements: the length asked for when doubling is not enough, else double
    the old capacity. *)
Definition nextslicecap (newLen oldCap : nat) : nat :=
  if decide (oldCap + oldCap < newLen) then newLen else oldCap + oldCap.

Section Append.

(** The capacity [growslice] picks for a new array, from the old capacity
    and the length needed.  The runtime rounds [nextslicecap] up to an
    allocation size class, which depends on the element size. *)
Variable growslice : nat -> nat -> nat.

(** [append(s, info)]: with room left the cell after the last one is
    written in place, in the array [s] points to; without, the elements move
    to a fresh, larger array. *)
Definition append (h : Heap) (s : sliceRef) (info : HandlerInfo) : sliceRef * Heap :=
  if decide (len s < cap s)
  then (mkSlice (ptr s) (S (len s)) (cap s),
        alter (fun cells => <[len s := info]> cells) (ptr s) h)
  else
    let c := growslice (cap s) (S (len s)) in
    let '(p, h') := alloc h (view h s ++ info :: replicate (c - S (len s)) zeroInfo) in
    (mkSlice p (S (len s)) c, h').

(** ** Contexts *)

Inductive ctxKeyType : Type := pkgKey (n : Z) | foreignKey (k : string).

Global Instance ctxKeyType_eq_dec : EqDecision ctxKeyType.
Proof. solve_decision. Defined.

Definition ctxKey : ctxKeyType := pkgKey 123.

(** A value of type [any] stored in a context. *)
Inductive any : Type := anyInfos (s : sliceRef) | anyOther (v : string).

Inductive Context : Type :=
| Background
| WithValue (parent : Context) (key : ctxKeyType) (val : any).

(** [ctx.Value(key)]: the nearest binding of the key. *)
Fixpoint Value (ctx : Context) (key : ctxKeyType) : option any :=
  match ctx with
  | Background => None
  | WithValue parent k v => if decide (k = key) then Some v else Value parent key
  end.

Definition contextWithHandlerInfo (parent : Context) (info : HandlerInfo) (h : Heap)
  : Context * Heap :=
  match Value parent ctxKey with
  | Some (anyInfos stack) =>
      let '(s, h') := append h stack info in
      (WithValue parent ctxKey (anyInfos s), h')
  | _ =>
      let '(s, h') := literal1 h info in
      (WithValue parent ctxKey (anyInfos s), h')
  end.

(** [GetHandlerInfoFromContext] returns the slice held by the context, or
    the empty literal [[]HandlerInfo{}]. *)
Definition GetHandlerInfoFromContext (ctx : Context) : sliceRef :=
  match Value ctx ctxKey with
  | Some (anyInfos stack) => stack
  | _ => mkSlice 0 0 0
  end.

End Append.

(** ** The container's slice

    The slice of identified handlers is referenced from the container alone,
    so it is kept with its visible elements and its capacity; the cells of
    its array beyond the length are never read before they are written. *)

Record slice (A : Type) : Type := mkSliceOf { elems : list A; capacity : nat }.
Arguments mkSliceOf {A} _ _.
Arguments elems {A} _.
Arguments capacity {A} _.

Section Slices.

Context {A : Type}.
Variable growslice : nat -> nat -> nat.

(** [append(s, v)]. *)
Definition slice_append (s : slice A) (v : A) : slice A :=
  if decide (length (elems s) < capacity s)
  then mkSliceOf (elems s ++ [v]) (capacity s)
  else mkSliceOf (elems s ++ [v]) (growslice (capacity s) (S (length (elems s)))).

(** [slices.IndexFunc(s, f)]: the first index whose element satisfies [f];
    [None] stands for the result -1. *)
Definition slices_IndexFunc (s : slice A) (f : A -> Prop) `{!forall x, Decision (f x)}
  : option nat :=
  fst <$> list_find f (elems s).

(** [slices.DeleteFunc(s, del)]: the elements that do not satisfy [del], in
    the same array. *)
Definition slices_DeleteFunc (s : slice A) (del : A -> Prop) `{!forall x, Decision (del x)}
  : slice A :=
  mkSliceOf (filter (fun e => ~ del e) (elems s)) (capacity s).

(** [slices.Insert(s, 0, v)] with one value.  The first component is the
    slice the call returns.  The second is what the argument [s], whose
    header the caller keeps, shows afterwards:
    - on an empty [s] the call is [append(s, v)], which writes beyond the
      length of [s] or into a fresh array;
    - when [len(s) + 1] exceeds the capacity the result is built in a fresh
      array and the array of [s] is left alone;
    - otherwise the elements are shifted up by one inside the array of [s]
      and [v] is written to cell 0, so the array holds [v :: elems s] and
      [s] shows its first [len(s)] cells. *)
Definition slices_Insert0 (s : slice A) (v : A) : slice A * slice A :=
  let n := length (elems s) in
  if decide (n = 0) then (slice_append s v, s)
  else if decide (capacity s < n + 1)
  then (mkSliceOf (v :: elems s) (growslice (capacity s) (n + 1)), s)
  else (mkSliceOf (v :: elems s) (capacity s),
        mkSliceOf (take n (v :: elems s)) (capacity s)).

End Slices.

(** ** Add options *)

Record builtAddOptions : Type :=
  mkOptions { name : string; swapID : HandlerID; last : bool }.

(** An [AddOption] is a function on [*builtAddOptions]; the type of its
    argument is not exported, so the three constructors of the package are
    the only options there are. *)
Inductive AddOption : Type :=
| AddOptionName (n : string)
| AddOptionSwap (id : HandlerID)
| AddOptionLast.

Definition applyOption (built : builtAddOptions) (opt : AddOption) : builtAddOptions :=
  match opt with
  | AddOptionName n => mkOptions n (swapID built) (last built)
  | AddOptionSwap id => mkOptions (name built) id (last built)
  | AddOptionLast => mkOptions (name built) (swapID built) true
  end.

Definition buildAddOptions (opts : list AddOption) : builtAddOptions :=
  fold_left applyOption opts (mkOptions EmptyString 0%N false).

(** ** Handlers and the container *)

Section Mutableware.

Variables Request Response : Type.
(** The zero value of [Response]. *)
Variable zero : Response.
(** The state handlers act on besides the heap of info stacks. *)
Variable U : Type.
(** Array growth for info stacks and for the container's slice. *)
Variable growInfos growHandlers : nat -> nat -> nat.

Record World : Type := mkWorld { heap : Heap; user : U }.

Definition CurriedValidatorFunc : Type :=
  Context -> Request -> World -> error * World.

Definition CurriedHandlerFunc : Type :=
  Context -> Request -> World -> (Response * error) * World.

Definition ValidatorFunc : Type :=
  Context -> Request -> CurriedValidatorFunc -> World -> error * World.

Definition HandlerFunc : Type :=
  Context -> Request -> CurriedHandlerFunc -> World -> (Response * error) * World.

(** The interface [Handler]. *)
Record Handler : Type := mkHandler { Validate : ValidatorFunc; Handle : HandlerFunc }.

(** [NewAnonymousHandler]: a [nil] function is replaced by one that calls
    its continuation. *)
Definition NewAnonymousHandler (validatorFn : option ValidatorFunc)
  (handlerFn : option HandlerFunc) : Handler :=
  mkHandler
    (match validatorFn with
     | Some f => f
     | None => fun ctx request next => next ctx request
     end)
    (match handlerFn with
     | Some f => f
     | None => fun ctx request next => next ctx request
     end).

Record identifiedHandler : Type :=
  mkIdentified { handler : Handler; info : HandlerInfo }.

Definition nilCurriedValidatorFunc : CurriedValidatorFunc :=
  fun ctx request w => (None, w).

Definition nilCurriedHandlerFunc : CurriedHandlerFunc :=
  fun ctx request w => ((zero, None), w).

(** The lock [mux] is left out: calls are taken one at a time. *)
Record HandlerContainer : Type := mkContainer {
  stack : slice identifiedHandler;
  nextID : N;
  cachedValidator : CurriedValidatorFunc;
  cachedHandler : CurriedHandlerFunc
}.

Definition NewHandlerContainer : HandlerContainer :=
  mkContainer (mkSliceOf [] 0) 10%N nilCurriedValidatorFunc nilCurriedHandlerFunc.

(** The closure [curriedValidator] of one turn of the loop of
    [buildHandlers]. *)
Definition curriedValidator (h : identifiedHandler) (prevValidator : CurriedValidatorFunc)
  : CurriedValidatorFunc :=
  fun cx msg w =>
    let '(handlerCtx, hp) := contextWithHandlerInfo growInfos cx (info h) (heap w) in
    let '(err, w') := Validate (handler h) handlerCtx msg prevValidator (mkWorld hp (user w)) in
    match err with
    | Some e =>
        if negb (errors_Is err (Some ErrValidate))
        then (Some (Errorf_handler ErrValidate (info h) e), w')
        else (err, w')
    | None => (err, w')
    end.

(** The closure [curriedHandler] of one turn of the loop. *)
Definition curriedHandler (h : identifiedHandler) (prevHandler : CurriedHandlerFunc)
  : CurriedHandlerFunc :=
  fun cx msg w =>
    let '(handlerCtx, hp) := contextWithHandlerInfo growInfos cx (info h) (heap w) in
    let '((out, err), w') := Handle (handler h) handlerCtx msg prevHandler (mkWorld hp (user w)) in
    match err with
    | Some e =>
        if negb (errors_Is err (Some ErrHandle))
        then ((out, Some (Errorf_handler ErrHandle (info h) e)), w')
        else ((out, err), w')
    | None => ((out, err), w')
    end.

(** The loop of [buildHandlers] over the stack, oldest handler first. *)
Definition compile (l : list identifiedHandler)
  : CurriedValidatorFunc * CurriedHandlerFunc :=
  fold_left (fun acc h => (curriedValidator h (fst acc), curriedHandler h (snd acc)))
            l (nilCurriedValidatorFunc, nilCurriedHandlerFunc).

Definition buildHandlers (hc : HandlerContainer) : HandlerContainer :=
  let built := compile (elems (stack hc)) in
  mkContainer (stack hc) (nextID hc) (fst built) (snd built).

(** [Add]; the deferred [buildHandlers] runs on both returns. *)
Definition Add (hc : HandlerContainer) (h : Handler) (options : list AddOption)
  : HandlerID * HandlerContainer :=
  let id : HandlerID := nextID hc in
  let next := uint64_add (nextID hc) 1 in
  let addOpts := buildAddOptions options in
  let idHandler := mkIdentified h (mkInfo id (name addOpts)) in
  let swapped :=
    if decide (swapID addOpts <> 0%N)
    then slices_IndexFunc (stack hc) (fun e => ID (info e) = swapID addOpts)
    else None in
  match swapped with
  | Some idx =>
      (id, buildHandlers
             (mkContainer (mkSliceOf (<[idx := idHandler]> (elems (stack hc)))
                                     (capacity (stack hc)))
                          next (cachedValidator hc) (cachedHandler hc)))
  | None =>
      if last addOpts
      then (id, buildHandlers
                  (mkContainer (snd (slices_Insert0 growHandlers (stack hc) idHandler))
                               next (cachedValidator hc) (cachedHandler hc)))
      else (id, buildHandlers
                  (mkContainer (slice_append growHandlers (stack hc) idHandler)
                               next (cachedValidator hc) (cachedHandler hc)))
  end.

Definition Remove (hc : HandlerContainer) (id : HandlerID) : HandlerContainer :=
  buildHandlers
    (mkContainer (slices_DeleteFunc (stack hc) (fun e => ID (info e) = id))
                 (nextID hc) (cachedValidator hc) (cachedHandler hc)).

Definition HC_Validate (hc : HandlerContainer) : CurriedValidatorFunc :=
  fun ctx request => cachedValidator hc ctx request.

Definition HC_Handle (hc : HandlerContainer) : CurriedHandlerFunc :=
  fun ctx request => cachedHandler hc ctx request.

End Mutableware.

Arguments mkWorld {U} _ _.
Arguments heap {U} _.
Arguments user {U} _.
Arguments mkHandler {Request Response U} _ _.
Arguments Validate {Request Response U} _.
Arguments Handle {Request Response U} _.
Arguments NewAnonymousHandler {Request Response U} _ _.
Arguments mkIdentified {Request Response U} _ _.
Arguments handler {Request Response U} _.
Arguments info {Request Response U} _.
Arguments nilCurriedValidatorFunc {Request U}.
Arguments nilCurriedHandlerFunc {Request Response} zero {U}.
Arguments mkContainer {Request Response U} _ _ _ _.
Arguments stack {Request Response U} _.
Arguments nextID {Request Response U} _.
Arguments cachedValidator {Request Response U} _.
Arguments cachedHandler {Request Response U} _.
Arguments NewHandlerContainer {Request Response} zero {U}.
Arguments curriedValidator {Request Response U} growInfos _ _.
Arguments curriedHandler {Request Response U} growInfos _ _.
Arguments compile {Request Response} zero {U} growInfos _.
Arguments buildHandlers {Request Response} zero {U} growInfos _.
Arguments Add {Request Response} zero {U} growInfos growHandlers _ _ _.
Arguments Remove {Request Response} zero {U} growInfos _ _.
Arguments HC_Validate {Request Response U} _.
Arguments HC_Handle {Request Response U} _.

(** ** Reachable containers and runs of operations *)

Section Runs.

Context {Request Response U : Type}.
Variable zero : Response.
Variable growInfos growHandlers : nat -> nat -> nat.

(** The containers a program can hold: the fields are not exported, so a
    container is made by [NewHandlerContainer] and changed by [Add] and
    [Remove] only. *)
Inductive Reachable : HandlerContainer Request Response U -> Prop :=
| reach_new : Reachable (NewHandlerContainer zero)
| reach_add hc h options :
    Reachable hc -> Reachable (snd (Add zero growInfos growHandlers hc h options))
| reach_remove hc id :
    Reachable hc -> Reachable (Remove zero growInfos hc id).

(** A mutation of the container. *)
Inductive op : Type :=
| opAdd (h : Handler Request Response U) (options : list AddOption)
| opRemove (id : HandlerID).

(** Runs the mutations in order; returns the IDs the [Add]s gave, in the
    order they were given, and the container at the end. *)
Fixpoint run (ops : list op) (hc : HandlerContainer Request Response U)
  : list HandlerID * HandlerContainer Request Response U :=
  match ops with
  | [] => ([], hc)
  | opAdd h options :: rest =>
      let '(id, hc') := Add zero growInfos growHandlers hc h options in
      let '(ids, hc'') := run rest hc' in
      (id :: ids, hc'')
  | opRemove id :: rest => run rest (Remove zero growInfos hc id)
  end.

Definition isAdd (o : op) : bool :=
  match o with opAdd _ _ => true | opRemove _ => false end.

(** How many [Add]s a run makes. *)
Definition adds (ops : list op) : nat := length (List.filter isAdd ops).

(** Adds the handlers one after the other, without options. *)
Definition addAll (hs : list (Handler Request Response U))
  (hc : HandlerContainer Request Response U) : HandlerContainer Request Response U :=
  fold_left (fun c h => snd (Add zero growInfos growHandlers c h [])) hs hc.

(** The chain read from the newest handler inwards: each handler's frame
    is given the chain of the older handlers as its continuation, and the
    oldest one the terminal no-op. *)
Fixpoint chainNewestFirst (newestFirst : list (identifiedHandler Request Response U))
  : CurriedHandlerFunc Request Response U :=
  match newestFirst with
  | [] => nilCurriedHandlerFunc zero
  | h :: older => curriedHandler growInfos h (chainNewestFirst older)
  end.

Fixpoint validatorNewestFirst (newestFirst : list (identifiedHandler Request Response U))
  : CurriedValidatorFunc Request U :=
  match newestFirst with
  | [] => nilCurriedValidatorFunc
  | h :: older => curriedValidator growInfos h (validatorNewestFirst older)
  end.

End Runs.

Arguments opAdd {Request Response U} _ _.
Arguments opRemove {Request Response U} _.

(** The IDs of the handlers in the container, oldest first. *)
Definition stackIDs {Request Response U : Type} (hc : HandlerContainer Request Response U)
  : list HandlerID :=
  (fun e => ID (info e)) <$> elems (stack hc).

Definition isSwap (o : AddOption) : bool :=
  match o with AddOptionSwap _ => true | _ => false end.

(** The options of a call with its swap options taken away. *)
Definition withoutSwap (opts : list AddOption) : list AddOption :=
  List.filter (fun o => negb (isSwap o)) opts.

(** ** Handlers used in examples *)

(** A handler that leaves a mark in the state and calls its continuation. *)
Definition tracer {Request Response U : Type} (emit : U -> U) : Handler Request Response U :=
  mkHandler
    (fun ctx request next w => next ctx request (mkWorld (heap w) (emit (user w))))
    (fun ctx request next w => next ctx request (mkWorld (heap w) (emit (user w)))).

(** A handler that, like the ones of [TestContext], keeps the context it
    is given, here with the stack the context shows at that moment, and
    calls its continuation. *)
Definition observer {Request Response : Type}
  : Handler Request Response (list (Context * list HandlerInfo)) :=
  let keep (ctx : Context) (w : World (list (Context * list HandlerInfo))) :=
    mkWorld (heap w)
            (user w ++ [(ctx, view (heap w) (GetHandlerInfoFromContext ctx))]) in
  mkHandler
    (fun ctx request next w => next ctx request (keep ctx w))
    (fun ctx request next w => next ctx request (keep ctx w)).

(** A handler that answers by itself, without calling its continuation. *)
Definition answer {Request Response U : Type} (out : Response) (err : error)
  : Handler Request Response U :=
  mkHandler (fun ctx request next w => (err, w))
            (fun ctx request next w => ((out, err), w)).

(** Array growth as the runtime does it for small slices. *)
Definition goGrow (oldCap newLen : nat) : nat := nextslicecap newLen oldCap.

(** ** Kinds of handlers the error properties speak about *)

Section Kinds.

Context {Request Response U : Type}.

(** The handler calls its continuation and returns what the continuation
    returns, unchanged. *)
Definition handleCallsThrough (h : Handler Request Response U) : Prop :=
  forall ctx request next w, exists ctx' request' w0,
    Handle h ctx request next w = next ctx' request' w0.

Definition validateCallsThrough (h : Handler Request Response U) : Prop :=
  forall ctx request next w, exists ctx' request' w0,
    Validate h ctx request next w = next ctx' request' w0.



End Kinds.



(** A handler that calls its continuation and then sends the request, with
    the context it was given, through another container. *)
Definition forwarder {Request Response U : Type}
  (other : HandlerContainer Request Response U) : Handler Request Response U :=
  mkHandler
    (fun ctx request next w =>
       let r := next ctx request w in HC_Validate other ctx request (snd r))
    (fun ctx request next w =>
       let r := next ctx request w in HC_Handle other ctx request (snd r)).

(** *** A handler added last, as in [TestAddLast], and after three others *)

Definition namedTracer (n : string) : Handler unit unit (list string) :=
  tracer (fun u => u ++ [n]).

Definition withA : HandlerContainer unit unit (list string) :=
  snd (Add tt goGrow goGrow (NewHandlerContainer tt) (namedTracer "a") [AddOptionName "a"]).

Definition addLastB : HandlerID * HandlerContainer unit unit (list string) :=
  Add tt goGrow goGrow withA (namedTracer "b") [AddOptionLast; AddOptionName "b"].

Definition threePlain : HandlerContainer unit unit (list string) :=
  addAll tt goGrow goGrow [namedTracer "a"; namedTracer "b"; namedTracer "c"]
         (NewHandlerContainer tt).

Definition addLastD : HandlerID * HandlerContainer unit unit (list string) :=
  Add tt goGrow goGrow threePlain (namedTracer "d") [AddOptionLast].

(** *** Two extensions of one context *)

Definition infoFirst : HandlerInfo := mkInfo 13%N "first".
Definition infoSecond : HandlerInfo := mkInfo 12%N "second".
Definition infoThird : HandlerInfo := mkInfo 11%N "third".
Definition infoLeft : HandlerInfo := mkInfo 10%N "left".
Definition infoRight : HandlerInfo := mkInfo 20%N "right".

(** The context of the third handler of a chain, with the heap at that
    point: its stack has three elements in an array of four cells. *)
Definition parent3 : Context * Heap :=
  let '(c1, h1) := contextWithHandlerInfo goGrow Background infoFirst [] in
  let '(c2, h2) := contextWithHandlerInfo goGrow c1 infoSecond h1 in
  contextWithHandlerInfo goGrow c2 infoThird h2.

Definition leftChild : Context * Heap :=
  contextWithHandlerInfo goGrow (fst parent3) infoLeft (snd parent3).

Definition rightChild : Context * Heap :=
  contextWithHandlerInfo goGrow (fst parent3) infoRight (snd leftChild).

(** The same through two containers: the third handler of [outer] calls its
    continuation and then hands its context to [inner]. *)
Definition inner : HandlerContainer unit unit (list (Context * list HandlerInfo)) :=
  snd (Add tt goGrow goGrow (NewHandlerContainer tt) observer [AddOptionName "inner"]).

Definition outer : HandlerContainer unit unit (list (Context * list HandlerInfo)) :=
  let c0 := snd (Add tt goGrow goGrow (NewHandlerContainer tt) observer [AddOptionName "h0"]) in
  let c1 := snd (Add tt goGrow goGrow c0 (forwarder inner) [AddOptionName "h1"]) in
  let c2 := snd (Add tt goGrow goGrow c1 (NewAnonymousHandler None None) [AddOptionName "h2"]) in
  snd (Add tt goGrow goGrow c2 (NewAnonymousHandler None None) [AddOptionName "h3"]).

Definition outerRun
  : (unit * error) * World (list (Context * list HandlerInfo)) :=
  HC_Handle outer Background tt (mkWorld [] []).

(** *** A container whose counter has gone round *)

Definition plainHandler : Handler unit unit unit := NewAnonymousHandler None None.

Definition keeper : identifiedHandler unit unit unit :=
  mkIdentified plainHandler (mkInfo 10%N EmptyString).

(** The container that holds the handler with ID 10 alone, in an array of
    two cells, with its counter at [n]. *)
Definition holdingTen (n : N) : HandlerContainer unit unit unit :=
  buildHandlers tt goGrow
    (mkContainer (mkSliceOf [keeper] 2) n nilCurriedValidatorFunc (nilCurriedHandlerFunc tt)).

(** *** The chain of [TestHandleErr] *)

Definition anError : goerror := errorString 100 "an_error".

Definition failing : Handler unit string unit := answer "partial" (Some anError).

Definition passing : Handler unit string unit := NewAnonymousHandler None None.

Definition errChain : HandlerContainer unit string unit :=
  addAll EmptyString goGrow goGrow [passing; failing; passing; passing]
         (NewHandlerContainer EmptyString).


Definition errNewest : HandlerContainer unit string unit :=
  addAll EmptyString goGrow goGrow [passing; failing] (NewHandlerContainer EmptyString).

(** *** The handlers of [TestBasicWrapping] *)







(** *** A handler that fails with an error of a type that is not comparable *)




(** The swap of [TestHandleErr]. *)
Definition swapOptions : list AddOption := [AddOptionSwap 11%N; AddOptionName "new"].

Definition errSwapped : HandlerContainer unit string unit :=
  snd (Add EmptyString goGrow goGrow errChain failing swapOptions).



(** A short run of additions and removals. *)
Definition someOps : list (@op unit unit unit) :=
  [opAdd plainHandler []; opAdd plainHandler [AddOptionLast]; opRemove 10%N;
   opAdd plainHandler [AddOptionSwap 11%N]].


(** ** Stacks on the heap *)

(** The stack a context shows: what [GetHandlerInfoFromContext] returns,
    read in the heap. *)
Definition ctxStack (h : Heap) (ctx : Context) : list HandlerInfo :=
  view h (GetHandlerInfoFromContext ctx).

(** The slice points to an array of the heap that holds its elements, and
    all its capacity when there is room left. *)
Definition wfSlice (h : Heap) (s : sliceRef) : Prop :=
  exists cells, h !! ptr s = Some cells /\
                len s <= length cells /\
                (len s < cap s -> cap s <= length cells).

(** The stack of the context, when it has one, is such a slice. *)
Definition wfCtx (h : Heap) (ctx : Context) : Prop :=
  match Value ctx ctxKey with
  | Some (anyInfos s) => wfSlice h s
  | _ => True
  end.

(** The slice lies in another array than the stack of the context, or is
    no longer than it. *)
Definition coveredBy (s : sliceRef) (ctx : Context) : Prop :=
  match Value ctx ctxKey with
  | Some (anyInfos sc) => ptr s = ptr sc -> len s <= len sc
  | _ => True
  end.

(** Extends the context by the infos, one inside the other, as the frames
    of a chain do when every handler calls its continuation. *)
Definition enterAll (grow : nat -> nat -> nat) (infos : list HandlerInfo)
  (start : Context * Heap) : Context * Heap :=
  fold_left (fun ch i => contextWithHandlerInfo grow (fst ch) i (snd ch)) infos start.

(** The stacks the handlers of a chain see when each calls the next, from
    the handler entered first on: each one sees the stack of the one before
    with its own info appended. *)
Fixpoint stacksSeen (S : list HandlerInfo) (newestFirst : list HandlerInfo)
  : list (list HandlerInfo) :=
  match newestFirst with
  | [] => []
  | i :: older => (S ++ [i]) :: stacksSeen (S ++ [i]) older
  end.

(** *** More containers for examples *)

Definition emptied : HandlerContainer unit unit (list string) :=
  Remove tt goGrow withA 10%N.

Definition onlyPassing : HandlerContainer unit string unit :=
  addAll EmptyString goGrow goGrow [passing; passing] (NewHandlerContainer EmptyString).

Definition answering : Handler unit string unit := answer "a" None.

Definition answerOverPassing : HandlerContainer unit string unit :=
  addAll EmptyString goGrow goGrow [passing; answering] (NewHandlerContainer EmptyString).

Definition answerOverFailing : HandlerContainer unit string unit :=
  addAll EmptyString goGrow goGrow [failing; answering] (NewHandlerContainer EmptyString).

Definition observers3 : HandlerContainer unit unit (list (Context * list HandlerInfo)) :=
  addAll tt goGrow goGrow [observer; observer; observer] (NewHandlerContainer tt).

Definition mixedOptions : list AddOption :=
  [AddOptionName "x"; AddOptionLast; AddOptionSwap 3%N; AddOptionName "y"].


(** * Properties *)

(** ** Errors *)

Lemma goerror_eqb_refl : forall e, goerror_eqb e e = true.
Proof.
  fix IH 1. intros [a s|m e|m es|es|ty c s]; simpl.
  - by rewrite N.eqb_refl, String.eqb_refl.
  - by rewrite String.eqb_refl, IH.
  - rewrite String.eqb_refl. simpl.
    induction es as [|x es IHes]; [done|]. by rewrite IH, IHes.
  - induction es as [|x es IHes]; [done|]. by rewrite IH, IHes.
  - by rewrite !String.eqb_refl, Bool.eqb_reflx.
Qed.

Lemma is_refl e : comparable e = true -> is_ e e = true.
Proof. intros Hc. destruct e; cbn [is_]; by rewrite Hc, goerror_eqb_refl. Qed.

Lemma is_wrapErrors2 m s x t :
  is_ (wrapErrors m [s; x]) t =
  (comparable t && goerror_eqb (wrapErrors m [s; x]) t) || (is_ s t || (is_ x t || false)).
Proof. reflexivity. Qed.

(** A wrapped error takes part in its sentinel and in the error it wraps,
    each when its type is comparable. *)
Lemma Errorf_handler_Is sentinel i e :
  (comparable sentinel = true -> is_ (Errorf_handler sentinel i e) sentinel = true) /\
  (comparable e = true -> is_ (Errorf_handler sentinel i e) e = true).
Proof.
  unfold Errorf_handler. split; intros Hc; rewrite is_wrapErrors2.
  - rewrite (is_refl sentinel Hc). by rewrite orb_true_r.
  - rewrite (is_refl e Hc). by rewrite !orb_true_r.
Qed.


(** ** Lists and stacks *)

Lemma NoDup_insert_fresh {A} (l : list A) i x :
  NoDup l -> x ∉ l -> NoDup (<[i:=x]> l).
Proof.
  intros Hl Hx. destruct (decide (i < length l)) as [Hi|Hi].
  - rewrite insert_take_drop by done.
    rewrite <- Permutation_middle, <- delete_take_drop.
    apply NoDup_cons. split.
    + intros Hin. apply Hx. eapply elem_of_sublist; [done|]. apply sublist_delete.
    + eapply sublist_NoDup; [done|apply sublist_delete].
  - rewrite list_insert_ge by lia. done.
Qed.

Lemma StronglySorted_lt_NoDup (l : list N) : StronglySorted N.lt l -> NoDup l.
Proof.
  induction 1 as [|x l _ IHl Hx]; constructor; [|done].
  intros Hin. rewrite Forall_forall in Hx. specialize (Hx _ Hin). lia.
Qed.

Lemma lookup_alloc (h : Heap) cells k : (h ++ cells :: k) !! length h = Some cells.
Proof. by rewrite list_lookup_middle. Qed.

Lemma view_written (h : Heap) s cells i :
  h !! ptr s = Some cells ->
  len s < length cells ->
  view (alter (fun c => <[len s := i]> c) (ptr s) h) (mkSlice (ptr s) (S (len s)) (cap s)) =
  view h s ++ [i].
Proof.
  intros Hcells Hlen. unfold view. cbn [ptr len].
  rewrite list_lookup_alter_eq, Hcells. cbn [fmap option_fmap option_map default from_option id].
  rewrite (take_S_r _ _ i) by by apply list_lookup_insert_eq.
  by rewrite take_insert_ge.
Qed.

(** With room left in the array of the parent's stack, two extensions of
    the parent write the same cell: the second one changes the stack the
    first child shows. *)
Lemma sibling_extensions_share_cell grow parent s cells i1 i2 (h : Heap) :
  Value parent ctxKey = Some (anyInfos s) ->
  len s < cap s ->
  h !! ptr s = Some cells ->
  len s < length cells ->
  let e1 := contextWithHandlerInfo grow parent i1 h in
  let e2 := contextWithHandlerInfo grow parent i2 (snd e1) in
  view (snd e1) (GetHandlerInfoFromContext (fst e1)) = view h s ++ [i1] /\
  view (snd e2) (GetHandlerInfoFromContext (fst e2)) = view h s ++ [i2] /\
  view (snd e2) (GetHandlerInfoFromContext (fst e1)) = view h s ++ [i2] /\
  view (snd e2) (GetHandlerInfoFromContext parent) = view h s.
Proof.
  intros HV Hroom Hcells Hlen e1 e2.
  assert (He1 : e1 = (WithValue parent ctxKey (anyInfos (mkSlice (ptr s) (S (len s)) (cap s))),
                      alter (fun c => <[len s := i1]> c) (ptr s) h)).
  { unfold e1, contextWithHandlerInfo, append. rewrite HV. by rewrite decide_True. }
  assert (He2 : e2 = (WithValue parent ctxKey (anyInfos (mkSlice (ptr s) (S (len s)) (cap s))),
                      alter (fun c => <[len s := i2]> c) (ptr s) h)).
  { unfold e2, contextWithHandlerInfo, append. rewrite HV, He1. rewrite decide_True by done.
    cbn [snd]. f_equal. rewrite list_alter_alter_eq. apply list_alter_ext; [|done].
    intros c _. cbn. apply list_insert_insert_eq. }
  rewrite He1, He2. cbn [fst snd].
  change (GetHandlerInfoFromContext (WithValue parent ctxKey (anyInfos ?x))) with x.
  split; [by apply (view_written h s cells)|].
  split; [by apply (view_written h s cells)|].
  split; [by apply (view_written h s cells)|].
  unfold GetHandlerInfoFromContext. rewrite HV. unfold view.
  rewrite list_lookup_alter_eq, Hcells. cbn [fmap option_fmap option_map default from_option id].
  by rewrite take_insert_ge.
Qed.

Section Properties.

Context {Request Response U : Type}.
Variable zero : Response.
Variable growInfos growHandlers : nat -> nat -> nat.

Abbreviation HC := (HandlerContainer Request Response U).
Abbreviation IH := (identifiedHandler Request Response U).

(** ** Compilation *)

Lemma compile_snoc (l : list IH) h :
  compile zero growInfos (l ++ [h]) =
  (curriedValidator growInfos h (fst (compile zero growInfos l)),
   curriedHandler growInfos h (snd (compile zero growInfos l))).
Proof. unfold compile. by rewrite fold_left_app. Qed.

Lemma compile_newest_first (l : list IH) :
  compile zero growInfos l =
  (validatorNewestFirst growInfos (reverse l), chainNewestFirst zero growInfos (reverse l)).
Proof.
  induction l as [|h l IHl] using rev_ind; [done|].
  rewrite compile_snoc, reverse_snoc, IHl. done.
Qed.

Lemma buildHandlers_idemp (hc : HC) :
  buildHandlers zero growInfos (buildHandlers zero growInfos hc) =
  buildHandlers zero growInfos hc.
Proof. reflexivity. Qed.

Lemma Add_is_built (hc : HC) h options :
  exists c, snd (Add zero growInfos growHandlers hc h options) = buildHandlers zero growInfos c.
Proof.
  unfold Add.
  destruct (if decide (swapID (buildAddOptions options) <> 0%N) then _ else None);
    [|destruct (last (buildAddOptions options))]; simpl; eauto.
Qed.

(** The cache of a reachable container is the compilation of its stack. *)
Lemma Reachable_built (hc : HC) :
  Reachable zero growInfos growHandlers hc -> buildHandlers zero growInfos hc = hc.
Proof.
  intros [|c h options _|c id _].
  - reflexivity.
  - destruct (Add_is_built c h options) as [c' ->]. apply buildHandlers_idemp.
  - apply buildHandlers_idemp.
Qed.

Lemma filter_nothing {A} (P : A -> Prop) `{!forall x, Decision (P x)} (l : list A) :
  Forall P l -> filter P l = l.
Proof.
  induction 1 as [|x l Hx _ IHl]; [done|].
  by rewrite filter_cons_True, IHl.
Qed.

Lemma Reachable_cache (hc : HC) :
  Reachable zero growInfos growHandlers hc ->
  cachedValidator hc = fst (compile zero growInfos (elems (stack hc))) /\
  cachedHandler hc = snd (compile zero growInfos (elems (stack hc))).
Proof. intros Hr. by rewrite <- (Reachable_built hc Hr) at 1 3. Qed.

(** ** Add *)

Lemma Add_plain (hc : HC) h :
  Add zero growInfos growHandlers hc h [] =
  (nextID hc,
   buildHandlers zero growInfos
     (mkContainer
        (slice_append growHandlers (stack hc)
           (mkIdentified h (mkInfo (nextID hc) EmptyString)))
        (uint64_add (nextID hc) 1) (cachedValidator hc) (cachedHandler hc))).
Proof. reflexivity. Qed.

Lemma elems_slice_append {A} grow (s : slice A) v :
  elems (slice_append grow s v) = elems s ++ [v].
Proof. unfold slice_append. by case_decide. Qed.

Lemma addAll_handlers (hs : list (Handler Request Response U)) (hc : HC) :
  handler <$> elems (stack (addAll zero growInfos growHandlers hs hc)) =
  (handler <$> elems (stack hc)) ++ hs.
Proof.
  revert hc. induction hs as [|h hs IHhs]; intros hc.
  - simpl. by rewrite app_nil_r.
  - change (addAll zero growInfos growHandlers (h :: hs) hc) with
      (addAll zero growInfos growHandlers hs (snd (Add zero growInfos growHandlers hc h []))).
    rewrite IHhs, Add_plain. unfold buildHandlers. cbn [snd stack].
    rewrite elems_slice_append, fmap_app. by rewrite <- app_assoc.
Qed.

Lemma addAll_Reachable (hs : list (Handler Request Response U)) (hc : HC) :
  Reachable zero growInfos growHandlers hc ->
  Reachable zero growInfos growHandlers (addAll zero growInfos growHandlers hs hc).
Proof.
  revert hc. induction hs as [|h hs IHhs]; intros hc Hr; [done|].
  apply IHhs. by apply reach_add.
Qed.

(** A chain of tracers runs them newest first and ends in the no-op. *)
Lemma tracers_run_newest_first (emits : list (U -> U)) (l : list IH) :
  Forall2 (fun e f => handler e = tracer f) l emits ->
  forall cx msg w, exists hp,
    snd (compile zero growInfos l) cx msg w =
    ((zero, None), mkWorld hp (fold_left (fun u f => f u) (reverse emits) (user w))) /\
    fst (compile zero growInfos l) cx msg w =
    (None, mkWorld hp (fold_left (fun u f => f u) (reverse emits) (user w))).
Proof.
  revert l. induction emits as [|f emits IHe] using rev_ind; intros l HF cx msg w.
  - apply Forall2_nil_inv_r in HF as ->. exists (heap w). by destruct w.
  - apply Forall2_app_inv_r in HF as (l1 & l2 & HF1 & HF2 & ->).
    apply Forall2_cons_inv_r in HF2 as (x & l3 & Hx & HF3 & ->).
    apply Forall2_nil_inv_r in HF3 as ->.
    rewrite compile_snoc, reverse_snoc. simpl.
    unfold curriedHandler, curriedValidator.
    destruct (contextWithHandlerInfo growInfos cx (info x) (heap w)) as [ctx' hp'].
    rewrite Hx. simpl.
    destruct (IHe l1 HF1 ctx' msg (mkWorld hp' (f (user w)))) as (hp & -> & ->).
    by exists hp.
Qed.

Lemma Add_last_length (hc : HC) h options :
  last (buildAddOptions options) = true ->
  length (elems (stack (snd (Add zero growInfos growHandlers hc h options)))) =
  length (elems (stack hc)).
Proof.
  intros Hlast. unfold Add.
  destruct (if decide (swapID (buildAddOptions options) <> 0%N) then _ else None); simpl.
  - by rewrite length_insert.
  - rewrite Hlast. simpl. unfold slices_Insert0.
    repeat case_decide; simpl; try done.
    rewrite length_take. simpl. lia.
Qed.

Lemma build_withoutSwap (opts : list AddOption) (b : builtAddOptions) :
  fold_left applyOption (withoutSwap opts) (mkOptions (name b) 0%N (last b)) =
  mkOptions (name (fold_left applyOption opts b)) 0%N (last (fold_left applyOption opts b)).
Proof.
  revert b. induction opts as [|o opts IHo]; intros b; [done|].
  destruct o; simpl; apply (IHo (mkOptions _ _ _)).
Qed.

Lemma buildAddOptions_withoutSwap (opts : list AddOption) :
  buildAddOptions (withoutSwap opts) =
  mkOptions (name (buildAddOptions opts)) 0%N (last (buildAddOptions opts)).
Proof. apply (build_withoutSwap opts (mkOptions EmptyString 0%N false)). Qed.

(** ** Invocation order *)

(** C3. After any sequence of handlers added by plain [Add], the stack
    holds the handlers oldest first, and the compiled chains are the fold
    that makes every handler the continuation of the next newer one, with
    the terminal no-op under the oldest: the handler added last is the
    outermost frame, and handlers that call their continuation run newest
    first and end in the no-op. *)
Theorem plain_add_invokes_newest_first
  (hs : list (Handler Request Response U)) (emits : list (U -> U)) :
  let new := NewHandlerContainer zero in
  let hc := addAll zero growInfos growHandlers hs new in
  handler <$> elems (stack hc) = hs /\
  HC_Handle hc = chainNewestFirst zero growInfos (reverse (elems (stack hc))) /\
  HC_Validate hc = validatorNewestFirst growInfos (reverse (elems (stack hc))) /\
  (forall h,
     HC_Handle (addAll zero growInfos growHandlers (hs ++ [h]) new) =
     curriedHandler growInfos (mkIdentified h (mkInfo (nextID hc) EmptyString))
                    (HC_Handle hc)) /\
  (forall cx msg w, exists hp,
     HC_Handle (addAll zero growInfos growHandlers (tracer <$> emits) new) cx msg w =
     ((zero, None), mkWorld hp (fold_left (fun u f => f u) (reverse emits) (user w)))).
Proof.
  intros new hc.
  assert (Hnew : Reachable zero growInfos growHandlers new) by constructor.
  assert (Hr : Reachable zero growInfos growHandlers hc) by by apply addAll_Reachable.
  destruct (Reachable_cache hc Hr) as [HV HH].
  split; [|split; [|split; [|split]]].
  - unfold hc. by rewrite addAll_handlers.
  - unfold HC_Handle. rewrite HH, compile_newest_first. done.
  - unfold HC_Validate. rewrite HV, compile_newest_first. done.
  - intros h. unfold addAll. rewrite fold_left_app. fold (addAll zero growInfos growHandlers hs new).
    fold hc. cbn [fold_left]. rewrite Add_plain. unfold HC_Handle, buildHandlers.
    cbn [snd cachedHandler stack]. rewrite elems_slice_append, compile_snoc, HH. done.
  - intros cx msg w.
    set (hc' := addAll zero growInfos growHandlers (tracer <$> emits) new).
    assert (Hr' : Reachable zero growInfos growHandlers hc') by by apply addAll_Reachable.
    destruct (Reachable_cache hc' Hr') as [_ HH'].
    assert (HF : Forall2 (fun x (f : U -> U) => x = tracer f)
                         (handler <$> elems (stack hc')) emits).
    { unfold hc'. rewrite addAll_handlers. simpl.
      apply Forall2_fmap_l, Forall_Forall2_diag, Forall_forall. done. }
    apply Forall2_fmap_l in HF.
    destruct (tracers_run_newest_first emits (elems (stack hc')) HF cx msg w)
      as (hp & Hhp & _).
    exists hp. unfold HC_Handle. by rewrite HH'.
Qed.

(** ** Remove *)

(** C9. Removing an ID that no handler of the container has changes
    nothing: the container is the one before, with the same stack, the same
    next-ID counter and the same compiled [Validate] and [Handle]. [Remove]
    has no result, so nothing is reported. *)
Theorem Remove_absent_is_noop (hc : HC) (id : HandlerID) :
  Reachable zero growInfos growHandlers hc ->
  id ∉ stackIDs hc ->
  Remove zero growInfos hc id = hc /\
  stack (Remove zero growInfos hc id) = stack hc /\
  nextID (Remove zero growInfos hc id) = nextID hc /\
  HC_Validate (Remove zero growInfos hc id) = HC_Validate hc /\
  HC_Handle (Remove zero growInfos hc id) = HC_Handle hc.
Proof.
  intros Hr Hid.
  assert (E : Remove zero growInfos hc id = hc).
  { rewrite <- (Reachable_built hc Hr) at 2.
    unfold Remove, slices_DeleteFunc. rewrite filter_nothing.
    - by destruct hc as [[es c] n cv ch].
    - apply Forall_forall. intros e He Heq. apply Hid.
      unfold stackIDs. apply list_elem_of_fmap. by exists e. }
  by rewrite E.
Qed.

(** ** Swap *)

(** C6. With a swap target [t] (not zero, the value that stands for no
    target) held by the entry at position [k], the first one with that ID,
    [Add] puts the new handler at position [k] and leaves the length and
    every other position as they were; when no entry has the ID [t], [Add]
    does what it does for the same options without the swap. *)
Theorem swap_replaces_in_place (hc : HC) h options :
  let t := swapID (buildAddOptions options) in
  let hc' := snd (Add zero growInfos growHandlers hc h options) in
  (forall k e,
     t <> 0%N ->
     elems (stack hc) !! k = Some e ->
     ID (info e) = t ->
     (forall j e', j < k -> elems (stack hc) !! j = Some e' -> ID (info e') <> t) ->
     length (elems (stack hc')) = length (elems (stack hc)) /\
     elems (stack hc') !! k =
       Some (mkIdentified h (mkInfo (nextID hc) (name (buildAddOptions options)))) /\
     (forall j, j <> k -> elems (stack hc') !! j = elems (stack hc) !! j)) /\
  (t ∉ stackIDs hc ->
   Add zero growInfos growHandlers hc h options =
   Add zero growInfos growHandlers hc h (withoutSwap options)).
Proof.
  intros t hc'. split.
  - intros k e Ht Hk He Hfirst.
    assert (Hfind : slices_IndexFunc (stack hc) (fun e => ID (info e) = t) = Some k).
    { unfold slices_IndexFunc.
      assert (list_find (fun e => ID (info e) = t) (elems (stack hc)) = Some (k, e)) as ->; [|done].
      apply list_find_Some. split; [done|]. split; [done|].
      intros j y Hj Hlt. by apply (Hfirst j y). }
    unfold hc', Add. fold t. rewrite decide_True by done. rewrite Hfind. simpl.
    split; [by rewrite length_insert|]. split.
    + apply list_lookup_insert_eq. by eapply lookup_lt_Some.
    + intros j Hj. by apply list_lookup_insert_ne.
  - intros Habs.
    assert (Hfind : slices_IndexFunc (stack hc) (fun e => ID (info e) = t) = None).
    { unfold slices_IndexFunc.
      assert (list_find (fun e => ID (info e) = t) (elems (stack hc)) = None) as ->; [|done].
      apply list_find_None, Forall_forall. intros e He Heq. apply Habs.
      unfold stackIDs. apply list_elem_of_fmap. by exists e. }
    unfold Add. rewrite buildAddOptions_withoutSwap. fold t. cbn [swapID name last].
    rewrite (decide_False (P := 0%N <> 0%N)) by (intros H; by apply H).
    rewrite Hfind. by case_decide.
Qed.

(** ** Responses on the error path *)

(** C10. When the newest handler of a container returns a response
    together with an error that is not yet tagged, [Handle] returns that
    very response next to the wrapped error. *)
Theorem response_kept_with_wrapped_error (hc : HC) older h cx msg w out e w' :
  Reachable zero growInfos growHandlers hc ->
  elems (stack hc) = older ++ [h] ->
  (let entry := contextWithHandlerInfo growInfos cx (info h) (heap w) in
   Handle (handler h) (fst entry) msg (snd (compile zero growInfos older))
          (mkWorld (snd entry) (user w)) = ((out, Some e), w')) ->
  errors_Is (Some e) (Some ErrHandle) = false ->
  HC_Handle hc cx msg w = ((out, Some (Errorf_handler ErrHandle (info h) e)), w').
Proof.
  intros Hr Hst Hcall Htag.
  destruct (Reachable_cache hc Hr) as [_ HH].
  unfold HC_Handle. rewrite HH, Hst, compile_snoc. cbn [snd]. unfold curriedHandler.
  destruct (contextWithHandlerInfo growInfos cx (info h) (heap w)) as [ctx' hp].
  simpl in Hcall. rewrite Hcall, Htag. done.
Qed.

(** ** Error attribution *)


Lemma handler_frame_tagged (h : IH) prev cx msg w :
  match snd (fst (curriedHandler growInfos h prev cx msg w)) with
  | Some e => is_ e ErrHandle = true
  | None => True
  end.
Proof.
  unfold curriedHandler.
  destruct (contextWithHandlerInfo growInfos cx (info h) (heap w)) as [ctx' hp].
  destruct (Handle (handler h) ctx' msg prev (mkWorld hp (user w))) as [[out [e|]] w']; [|done].
  cbn [errors_Is]. destruct (is_ e ErrHandle) eqn:He; cbn [negb snd fst]; [done|].
  by apply Errorf_handler_Is.
Qed.

Lemma validator_frame_tagged (h : IH) prev cx msg w :
  match fst (curriedValidator growInfos h prev cx msg w) with
  | Some e => is_ e ErrValidate = true
  | None => True
  end.
Proof.
  unfold curriedValidator.
  destruct (contextWithHandlerInfo growInfos cx (info h) (heap w)) as [ctx' hp].
  destruct (Validate (handler h) ctx' msg prev (mkWorld hp (user w))) as [[e|] w']; [|done].
  cbn [errors_Is]. destruct (is_ e ErrValidate) eqn:He; cbn [negb snd fst]; [done|].
  by apply Errorf_handler_Is.
Qed.

(** What a compiled chain returns is [nil] or tagged already. *)
Lemma handler_chain_tagged (l : list IH) cx msg w :
  match snd (fst (snd (compile zero growInfos l) cx msg w)) with
  | Some e => is_ e ErrHandle = true
  | None => True
  end.
Proof.
  destruct l as [|h l _] using rev_ind; [done|].
  rewrite compile_snoc. apply handler_frame_tagged.
Qed.

Lemma validator_chain_tagged (l : list IH) cx msg w :
  match fst (fst (compile zero growInfos l) cx msg w) with
  | Some e => is_ e ErrValidate = true
  | None => True
  end.
Proof.
  destruct l as [|h l _] using rev_ind; [done|].
  rewrite compile_snoc. apply validator_frame_tagged.
Qed.

(** A frame hands a tagged error on as it is. *)
Lemma handler_frame_passes_tagged (a : IH) prev cx msg w out e w' :
  (let entry := contextWithHandlerInfo growInfos cx (info a) (heap w) in
   Handle (handler a) (fst entry) msg prev (mkWorld (snd entry) (user w)) =
   ((out, Some e), w')) ->
  errors_Is (Some e) (Some ErrHandle) = true ->
  curriedHandler growInfos a prev cx msg w = ((out, Some e), w').
Proof.
  intros Hcall Htag. unfold curriedHandler.
  destruct (contextWithHandlerInfo growInfos cx (info a) (heap w)) as [ctx' hp].
  simpl in Hcall. by rewrite Hcall, Htag.
Qed.

Lemma validator_frame_passes_tagged (a : IH) prev cx msg w e w' :
  (let entry := contextWithHandlerInfo growInfos cx (info a) (heap w) in
   Validate (handler a) (fst entry) msg prev (mkWorld (snd entry) (user w)) =
   (Some e, w')) ->
  errors_Is (Some e) (Some ErrValidate) = true ->
  curriedValidator growInfos a prev cx msg w = (Some e, w').
Proof.
  intros Hcall Htag. unfold curriedValidator.
  destruct (contextWithHandlerInfo growInfos cx (info a) (heap w)) as [ctx' hp].
  simpl in Hcall. by rewrite Hcall, Htag.
Qed.

(** Frames of handlers that call through return what the chain below
    them returns. *)
Lemma handler_frames_call_through (uppers l : list IH) :
  Forall (fun a => handleCallsThrough (handler a)) uppers ->
  forall cx msg w, exists cx' msg' w0,
    snd (compile zero growInfos (l ++ uppers)) cx msg w =
    snd (compile zero growInfos l) cx' msg' w0.
Proof.
  induction uppers as [|a uppers IHu] using rev_ind; intros Hall cx msg w.
  - rewrite app_nil_r. eauto.
  - apply Forall_app in Hall as [Hall Ha]. rewrite Forall_singleton in Ha.
    rewrite app_assoc, compile_snoc. cbn [snd].
    set (entry := contextWithHandlerInfo growInfos cx (info a) (heap w)).
    destruct (Ha (fst entry) msg (snd (compile zero growInfos (l ++ uppers)))
                 (mkWorld (snd entry) (user w))) as (cx1 & msg1 & w1 & Hthrough).
    destruct (IHu Hall cx1 msg1 w1) as (cx' & msg' & w0 & Hbelow).
    exists cx', msg', w0. rewrite <- Hbelow.
    pose proof (handler_chain_tagged (l ++ uppers) cx1 msg1 w1) as Htag.
    destruct (snd (compile zero growInfos (l ++ uppers)) cx1 msg1 w1) as [[out [e|]] w'] eqn:Hres.
    + by apply handler_frame_passes_tagged.
    + unfold curriedHandler. fold entry. destruct entry as [ctx' hp]. simpl in Hthrough.
      by rewrite Hthrough.
Qed.

Lemma validator_frames_call_through (uppers l : list IH) :
  Forall (fun a => validateCallsThrough (handler a)) uppers ->
  forall cx msg w, exists cx' msg' w0,
    fst (compile zero growInfos (l ++ uppers)) cx msg w =
    fst (compile zero growInfos l) cx' msg' w0.
Proof.
  induction uppers as [|a uppers IHu] using rev_ind; intros Hall cx msg w.
  - rewrite app_nil_r. eauto.
  - apply Forall_app in Hall as [Hall Ha]. rewrite Forall_singleton in Ha.
    rewrite app_assoc, compile_snoc. cbn [fst].
    set (entry := contextWithHandlerInfo growInfos cx (info a) (heap w)).
    destruct (Ha (fst entry) msg (fst (compile zero growInfos (l ++ uppers)))
                 (mkWorld (snd entry) (user w))) as (cx1 & msg1 & w1 & Hthrough).
    destruct (IHu Hall cx1 msg1 w1) as (cx' & msg' & w0 & Hbelow).
    exists cx', msg', w0. rewrite <- Hbelow.
    pose proof (validator_chain_tagged (l ++ uppers) cx1 msg1 w1) as Htag.
    destruct (fst (compile zero growInfos (l ++ uppers)) cx1 msg1 w1) as [[e|] w'] eqn:Hres.
    + by apply validator_frame_passes_tagged.
    + unfold curriedValidator. fold entry. destruct entry as [ctx' hp]. simpl in Hthrough.
      by rewrite Hthrough.
Qed.







(** ** Handler IDs *)

Lemma uint64_add_1_small (x : N) :
  (x + 1 < uint64_modulus)%N -> uint64_add x 1 = (x + 1)%N.
Proof. intros Hx. unfold uint64_add. by apply N.mod_small. Qed.

(** [Add] returns the counter, and has it step by one; below the wrap the
    IDs of the stack stay distinct and under the counter. *)
Lemma Add_ids (hc : HC) h options :
  (nextID hc + 1 < uint64_modulus)%N ->
  NoDup (stackIDs hc) ->
  Forall (fun i => (i < nextID hc)%N) (stackIDs hc) ->
  let r := Add zero growInfos growHandlers hc h options in
  fst r = nextID hc /\
  nextID (snd r) = (nextID hc + 1)%N /\
  NoDup (stackIDs (snd r)) /\
  Forall (fun i => (i < nextID (snd r))%N) (stackIDs (snd r)).
Proof.
  intros Hsmall Hnd Hlt.
  assert (Hfresh : nextID hc ∉ stackIDs hc).
  { intros Hin. rewrite Forall_forall in Hlt. specialize (Hlt _ Hin). lia. }
  assert (Hlt' : Forall (fun i => (i < nextID hc + 1)%N) (stackIDs hc)).
  { eapply Forall_impl; [done|]. simpl. lia. }
  unfold Add.
  destruct (if decide (swapID (buildAddOptions options) <> 0%N) then _ else None) as [idx|];
    [|destruct (last (buildAddOptions options))];
    cbn [fst snd]; unfold stackIDs, buildHandlers; cbn [stack nextID elems];
    rewrite uint64_add_1_small by done; (split; [done|]); (split; [done|]).
  - rewrite list_fmap_insert. cbn [info ID]. split.
    + by apply NoDup_insert_fresh.
    + apply Forall_insert; [done|lia].
  - unfold slices_Insert0. repeat case_decide; cbn [snd elems]; try done.
    rewrite fmap_take, fmap_cons. cbn [info ID].
    assert (Hall : NoDup (nextID hc :: stackIDs hc)) by by apply NoDup_cons.
    split.
    + eapply sublist_NoDup; [done|apply sublist_take].
    + apply Forall_take, Forall_cons. split; [lia|done].
  - rewrite elems_slice_append, fmap_app. cbn [fmap list_fmap info ID]. split.
    + apply NoDup_app. split; [done|]. split; [|apply NoDup_singleton].
      intros x Hx Hx'. apply list_elem_of_singleton in Hx' as ->. done.
    + apply Forall_app. split; [done|]. apply Forall_singleton. lia.
Qed.

Lemma Remove_ids (hc : HC) id :
  NoDup (stackIDs hc) ->
  Forall (fun i => (i < nextID hc)%N) (stackIDs hc) ->
  nextID (Remove zero growInfos hc id) = nextID hc /\
  NoDup (stackIDs (Remove zero growInfos hc id)) /\
  Forall (fun i => (i < nextID hc)%N) (stackIDs (Remove zero growInfos hc id)).
Proof.
  intros Hnd Hlt.
  assert (Hsub : stackIDs (Remove zero growInfos hc id) `sublist_of` stackIDs hc).
  { unfold stackIDs, Remove, buildHandlers, slices_DeleteFunc. cbn [stack elems].
    apply fmap_sublist, sublist_filter. }
  split; [done|]. split.
  - by eapply sublist_NoDup.
  - apply Forall_forall. intros x Hx. rewrite Forall_forall in Hlt.
    apply Hlt. by eapply elem_of_sublist.
Qed.

Lemma run_ids (ops : list op) (hc : HC) :
  (nextID hc + N.of_nat (adds ops) < uint64_modulus)%N ->
  NoDup (stackIDs hc) ->
  Forall (fun i => (i < nextID hc)%N) (stackIDs hc) ->
  let r := run zero growInfos growHandlers ops hc in
  fst r = (fun k => (nextID hc + N.of_nat k)%N) <$> seq 0 (adds ops) /\
  StronglySorted N.lt (fst r) /\
  Forall (fun i => (nextID hc <= i < nextID (snd r))%N) (fst r) /\
  nextID (snd r) = (nextID hc + N.of_nat (adds ops))%N /\
  NoDup (stackIDs (snd r)) /\
  Forall (fun i => (i < nextID (snd r))%N) (stackIDs (snd r)).
Proof.
  revert hc. induction ops as [|[h options|id] ops IHops]; intros hc Hsmall Hnd Hlt.
  - simpl. unfold adds. simpl. rewrite N.add_0_r. repeat split; try done. constructor.
  - assert (Hadds : adds (opAdd h options :: ops) = S (adds ops)) by done.
    rewrite Hadds in *.
    destruct (Add_ids hc h options) as (Hid & Hnext & Hnd' & Hlt'); [lia|done|done|].
    cbn [run].
    destruct (Add zero growInfos growHandlers hc h options) as [i hc'] eqn:HAdd.
    cbn [fst snd] in *. subst i.
    destruct (IHops hc') as (He & Hs & Hr & Hn & Hnd'' & Hlt''); [lia|done|done|].
    destruct (run zero growInfos growHandlers ops hc') as [ids hc''] eqn:Hrun.
    cbn [fst snd] in *.
    split; [|split; [|split; [|split; [lia|done]]]].
    + rewrite He, Hnext. cbn [seq fmap list_fmap]. rewrite N.add_0_r. f_equal.
      rewrite <- fmap_S_seq, <- list_fmap_compose. apply list_fmap_ext.
      intros _ k _. simpl. lia.
    + constructor; [done|]. eapply Forall_impl; [done|]. simpl. lia.
    + constructor; [lia|]. eapply Forall_impl; [done|]. simpl. lia.
  - assert (Hadds : adds (@opRemove Request Response U id :: ops) = adds ops) by done.
    rewrite Hadds in *.
    destruct (Remove_ids hc id) as (Hnext & Hnd' & Hlt'); [done|done|].
    cbn [run]. by apply (IHops (Remove zero growInfos hc id)).
Qed.


(** C8, amended. As long as fewer than [2^64 - 10] handlers have been
    added, so that the counter has not gone round, the IDs given by the
    [Add]s of any run of additions and removals from a new container are
    10, 11, 12, ... in the order they are given: each is greater than all
    the ones before, none is given twice, none is zero, and the IDs held
    by the stack at the end of the run, that is at any time, are pairwise
    distinct. *)
Theorem ids_increase_below_wrap (ops : list op) :
  (10 + N.of_nat (adds ops) < uint64_modulus)%N ->
  let new : HC := NewHandlerContainer zero in
  let r := run zero growInfos growHandlers ops new in
  nextID new = 10%N /\
  fst r = (fun k => (10 + N.of_nat k)%N) <$> seq 0 (adds ops) /\
  StronglySorted N.lt (fst r) /\
  NoDup (fst r) /\
  Forall (fun i => i <> 0%N) (fst r) /\
  NoDup (stackIDs (snd r)).
Proof.
  intros Hsmall new r.
  destruct (run_ids ops new) as (He & Hs & Hr & Hn & Hnd & Hlt); [done|constructor|constructor|].
  fold r in He, Hs, Hr, Hn, Hnd, Hlt.
  split; [done|]. split; [done|]. split; [done|]. split; [by apply StronglySorted_lt_NoDup|].
  split; [|done].
  eapply Forall_impl; [done|]. simpl. change (nextID new) with 10%N. lia.
Qed.


End Properties.

(** ** The stacks handlers see *)

(** C7. In the container made by adding X under the name a and then Y
    under the name b, a call of [Handle] on the background context shows Y
    the stack [{idY, b}] and, Y calling its continuation, shows X the stack
    [{idY, b}; {idX, a}], on entry and when the contexts are read after the
    call; a context that went through no handler shows the empty stack. *)
Theorem stacks_seen_by_X_and_Y {Request Response : Type} (zero : Response)
  (growInfos growHandlers : nat -> nat -> nat) (request : Request) (h0 : Heap) :
  let new := NewHandlerContainer zero in
  let rX := Add zero growInfos growHandlers new observer [AddOptionName "a"] in
  let rY := Add zero growInfos growHandlers (snd rX) observer [AddOptionName "b"] in
  let idX := fst rX in
  let idY := fst rY in
  let res := HC_Handle (snd rY) Background request (mkWorld h0 []) in
  snd <$> user (snd res) = [[mkInfo idY "b"]; [mkInfo idY "b"; mkInfo idX "a"]] /\
  (fun seen => view (heap (snd res)) (GetHandlerInfoFromContext (fst seen))) <$> user (snd res) =
    [[mkInfo idY "b"]; [mkInfo idY "b"; mkInfo idX "a"]] /\
  fst res = (zero, None) /\
  idX = 10%N /\ idY = 11%N /\
  (forall h, view h (GetHandlerInfoFromContext Background) = []).
Proof.
  intros new rX rY idX idY res.
  set (X := mkInfo 10%N "a"). set (Y := mkInfo 11%N "b").
  set (sY := mkSlice (length h0) 1 1).
  set (sX := mkSlice (S (length h0)) 2 (growInfos 1 2)).
  set (cY := WithValue Background ctxKey (anyInfos sY)).
  set (cX := WithValue cY ctxKey (anyInfos sX)).
  set (h2 := h0 ++ [[Y]] ++ [[Y; X] ++ replicate (growInfos 1 2 - 2) zeroInfo]).
  assert (Hres : res = ((zero, None), mkWorld h2 [(cY, [Y]); (cX, [Y; X])])).
  { assert (Hr : Reachable zero growInfos growHandlers (snd rY)) by repeat constructor.
    destruct (Reachable_cache zero growInfos growHandlers _ Hr) as [_ HH].
    unfold res, HC_Handle. rewrite HH.
    assert (elems (stack (snd rY)) =
            [mkIdentified observer X; mkIdentified observer Y]) as ->.
    { unfold rY, rX, Add, buildHandlers. cbn [buildAddOptions fold_left applyOption swapID name last].
      rewrite decide_False by (intros H; by apply H).
      cbn [snd stack nextID]. by rewrite !elems_slice_append. }
    unfold compile. cbn [fold_left fst snd]. unfold curriedHandler.
    cbn [contextWithHandlerInfo Value literal1 alloc info heap user].
    cbn [observer Handle handler heap user app].
    fold sY. fold cY.
    assert (HvY : view (h0 ++ [[Y]]) sY = [Y]).
    { unfold view, sY. cbn [ptr len]. by rewrite lookup_alloc. }
    change (GetHandlerInfoFromContext cY) with sY. rewrite HvY.
    assert (contextWithHandlerInfo growInfos cY X (h0 ++ [[Y]]) = (cX, h2)) as ->.
    { unfold contextWithHandlerInfo. change (Value cY ctxKey) with (Some (anyInfos sY)).
      unfold append. cbn [sY len cap ptr]. rewrite decide_False by lia.
      fold sY. rewrite HvY. cbn [alloc].
      rewrite length_app. cbn [length]. replace (length h0 + 1) with (S (length h0)) by lia.
      unfold cX, sX, h2. by rewrite <- app_assoc. }
    change (GetHandlerInfoFromContext cX) with sX.
    assert (view h2 sX = [Y; X]) as ->; [|done].
    unfold view, h2, sX. cbn [ptr len]. rewrite app_assoc.
    replace (S (length h0)) with (length (h0 ++ [[Y]])) at 1 by (rewrite length_app; simpl; lia).
    by rewrite lookup_alloc. }
  rewrite Hres. cbn [fst snd user heap fmap list_fmap].
  split; [done|]. split; [|done].
  f_equal; [|f_equal].
  - change (GetHandlerInfoFromContext cY) with sY.
    unfold view, h2, sY. cbn [ptr len app]. by rewrite lookup_alloc.
  - change (GetHandlerInfoFromContext cX) with sX.
    unfold view, h2, sX. cbn [ptr len]. rewrite app_assoc.
    replace (S (length h0)) with (length (h0 ++ [[Y]])) at 1 by (rewrite length_app; simpl; lia).
    by rewrite lookup_alloc.
Qed.

(** ** Adding a handler last *)

(** C1 fails on the code: [Add] drops the slice that [slices.Insert]
    returns.  After one plain handler, as in [TestAddLast], the handler
    added last is given the ID 11 and is not in the stack, which is the one
    before, and a call does not reach it.  After three plain handlers, whose
    array has a cell to spare, the handler added last is at the head and the
    newest of the three is gone. *)
Theorem Add_last_does_not_insert :
  fst addLastB = 11%N /\
  stackIDs withA = [10%N] /\
  stackIDs (snd addLastB) = [10%N] /\
  user (snd (HC_Handle (snd addLastB) Background tt (mkWorld [] []))) = ["a"] /\
  stackIDs threePlain = [10%N; 11%N; 12%N] /\
  fst addLastD = 13%N /\
  stackIDs (snd addLastD) = [13%N; 10%N; 11%N] /\
  user (snd (HC_Handle (snd addLastD) Background tt (mkWorld [] []))) = ["b"; "a"; "d"].
Proof. vm_compute. repeat split. Qed.

(** ** Extending a stack twice *)

(** C2 fails on the code: [append] writes into the array of the parent's
    stack when it has room.  The stack of the third handler of a chain has
    three elements in four cells; of two extensions of its context, each
    shows the parent's stack with its own info at first, and the parent
    keeps showing its three elements, but after the second extension the
    first child shows the info of the second.  The same happens through the
    containers: the context kept by the oldest handler of [outer] showed
    that handler's info on entry and shows the one of [inner] after the
    call. *)
Theorem sibling_extension_overwrites_stack :
  let S := [infoFirst; infoSecond; infoThird] in
  view (snd parent3) (GetHandlerInfoFromContext (fst parent3)) = S /\
  view (snd leftChild) (GetHandlerInfoFromContext (fst leftChild)) = S ++ [infoLeft] /\
  view (snd rightChild) (GetHandlerInfoFromContext (fst rightChild)) = S ++ [infoRight] /\
  view (snd rightChild) (GetHandlerInfoFromContext (fst parent3)) = S /\
  view (snd rightChild) (GetHandlerInfoFromContext (fst leftChild)) = S ++ [infoRight] /\
  snd <$> user (snd outerRun) =
    [[mkInfo 13%N "h3"; mkInfo 12%N "h2"; mkInfo 11%N "h1"; mkInfo 10%N "h0"];
     [mkInfo 13%N "h3"; mkInfo 12%N "h2"; mkInfo 11%N "h1"; mkInfo 10%N "inner"]] /\
  (fun seen => view (heap (snd outerRun)) (GetHandlerInfoFromContext (fst seen)))
    <$> user (snd outerRun) =
    [[mkInfo 13%N "h3"; mkInfo 12%N "h2"; mkInfo 11%N "h1"; mkInfo 10%N "inner"];
     [mkInfo 13%N "h3"; mkInfo 12%N "h2"; mkInfo 11%N "h1"; mkInfo 10%N "inner"]].
Proof. vm_compute. repeat split. Qed.

(** ** The counter after it has gone round *)

Lemma holdingTen_step (x : N) :
  x <> 10%N ->
  Remove tt goGrow (snd (Add tt goGrow goGrow (holdingTen x) plainHandler [])) x =
  holdingTen (uint64_add x 1).
Proof.
  intros Hx. unfold Remove, holdingTen, buildHandlers, slices_DeleteFunc.
  cbn [Add snd stack nextID elems capacity].
  rewrite Add_plain. unfold buildHandlers. cbn [snd stack nextID elems capacity].
  unfold slice_append. cbn [elems capacity length]. rewrite decide_True by lia.
  cbn [elems capacity app].
  rewrite filter_cons_True by (cbn; congruence).
  rewrite filter_cons_False by (cbn; intros H; by apply H).
  done.
Qed.

Lemma holdingTen_Reachable (n : N) :
  (n <= 18446744073709551614)%N ->
  Reachable tt goGrow goGrow (holdingTen ((12 + n) mod uint64_modulus)).
Proof.
  induction n as [|n IHn] using N.peano_ind; intros Hn.
  - change (holdingTen ((12 + 0) mod uint64_modulus)) with
      (Remove tt goGrow
         (snd (Add tt goGrow goGrow
                 (snd (Add tt goGrow goGrow (NewHandlerContainer tt) plainHandler []))
                 plainHandler [])) 11%N).
    repeat constructor.
  - assert (Hx : ((12 + n) mod uint64_modulus)%N <> 10%N).
    { pose proof (N.Div0.div_mod (12 + n) uint64_modulus) as Hd.
      pose proof (N.mod_lt (12 + n) uint64_modulus) as Hm.
      unfold uint64_modulus in *. change (2 ^ 64)%N with 18446744073709551616%N in *.
      lia. }
    replace ((12 + N.succ n) mod uint64_modulus)%N
      with (uint64_add ((12 + n) mod uint64_modulus) 1).
    + rewrite <- (holdingTen_step _ Hx). apply reach_remove, reach_add, IHn. lia.
    + unfold uint64_add. rewrite N.Div0.add_mod_idemp_l. f_equal. lia.
Qed.

(** C8 as stated fails: the container that holds the handler with ID 10
    and whose counter is back at 10 is reached from a new one, by
    [2^64 - 1] further additions each followed by the removal of the handler
    just added; its next [Add] gives the ID 10 again, which is not greater
    than the ID 10 given before, and the stack then holds two handlers with
    the same ID. *)
Lemma ids_repeat_after_wrap :
  Reachable tt goGrow goGrow (holdingTen 10) /\
  stackIDs (holdingTen 10) = [10%N] /\
  fst (Add tt goGrow goGrow (holdingTen 10) plainHandler []) = 10%N /\
  stackIDs (snd (Add tt goGrow goGrow (holdingTen 10) plainHandler [])) = [10%N; 10%N] /\
  ~ NoDup (stackIDs (snd (Add tt goGrow goGrow (holdingTen 10) plainHandler []))).
Proof.
  split; [|split; [|split; [|split]]]; try reflexivity.
  - change 10%N with ((12 + 18446744073709551614) mod uint64_modulus)%N at 1.
    apply holdingTen_Reachable. lia.
  - change (stackIDs _) with [10%N; 10%N]. intros Hnd.
    apply NoDup_cons in Hnd as [Hnotin _]. apply Hnotin. by left.
Qed.


(** ** The theorems at work on the chains of the tests *)

Lemma errChain_Reachable : Reachable EmptyString goGrow goGrow errChain.
Proof. apply addAll_Reachable, reach_new. Qed.


Lemma errNewest_Reachable : Reachable EmptyString goGrow goGrow errNewest.
Proof. apply addAll_Reachable, reach_new. Qed.

Lemma errSwapped_Reachable : Reachable EmptyString goGrow goGrow errSwapped.
Proof. apply reach_add, errChain_Reachable. Qed.

Lemma passing_calls_through :
  handleCallsThrough passing /\ validateCallsThrough passing.
Proof. split; intros ctx request next w; by exists ctx, request, w. Qed.


Lemma Remove_absent_is_noop_witness :
  Remove tt goGrow withA 99%N = withA /\
  stack (Remove tt goGrow withA 99%N) = stack withA /\
  nextID (Remove tt goGrow withA 99%N) = nextID withA /\
  HC_Validate (Remove tt goGrow withA 99%N) = HC_Validate withA /\
  HC_Handle (Remove tt goGrow withA 99%N) = HC_Handle withA.
Proof.
  apply (Remove_absent_is_noop tt goGrow goGrow withA 99%N).
  - apply reach_add, reach_new.
  - change (stackIDs withA) with [10%N]. intros Hin.
    apply list_elem_of_singleton in Hin. discriminate.
Defined.

Lemma swap_replaces_in_place_witness :
  (let hc' := snd (Add EmptyString goGrow goGrow errChain failing swapOptions) in
   length (elems (stack hc')) = length (elems (stack errChain)) /\
   elems (stack hc') !! 1 = Some (mkIdentified failing (mkInfo 14%N "new")) /\
   (forall j, j <> 1 -> elems (stack hc') !! j = elems (stack errChain) !! j)) /\
  Add EmptyString goGrow goGrow errChain failing [AddOptionSwap 99%N] =
  Add EmptyString goGrow goGrow errChain failing (withoutSwap [AddOptionSwap 99%N]).
Proof.
  split.
  - pose proof (swap_replaces_in_place EmptyString goGrow goGrow errChain failing swapOptions)
      as Hswap.
    cbv zeta in Hswap. destruct Hswap as [Hswap _].
    apply (Hswap 1 (mkIdentified failing (mkInfo 11%N EmptyString))
           ltac:(discriminate)).
    + reflexivity.
    + reflexivity.
    + intros j e' Hj He'. assert (j = 0) as -> by lia.
      vm_compute in He'. injection He' as <-. discriminate.
  - pose proof (swap_replaces_in_place EmptyString goGrow goGrow errChain failing
                  [AddOptionSwap 99%N]) as Hswap.
    cbv zeta in Hswap. destruct Hswap as [_ Hswap]. apply Hswap.
    change (stackIDs errChain) with [10%N; 11%N; 12%N; 13%N].
    intros Hin. repeat (apply elem_of_cons in Hin as [Hin|Hin]; [discriminate|]).
    by apply elem_of_nil in Hin.
Defined.

Lemma response_kept_with_wrapped_error_witness :
  HC_Handle errNewest Background tt (mkWorld [] tt) =
  (("partial", Some (Errorf_handler ErrHandle (mkInfo 11%N EmptyString) anError)),
   mkWorld [[mkInfo 11%N EmptyString]] tt).
Proof.
  apply (response_kept_with_wrapped_error EmptyString goGrow goGrow errNewest
           [mkIdentified passing (mkInfo 10%N EmptyString)]
           (mkIdentified failing (mkInfo 11%N EmptyString))
           Background tt (mkWorld [] tt) "partial" anError
           (mkWorld [[mkInfo 11%N EmptyString]] tt)).
  - apply errNewest_Reachable.
  - reflexivity.
  - reflexivity.
  - reflexivity.
Defined.





Lemma ids_increase_below_wrap_witness :
  let r := run tt goGrow goGrow someOps (NewHandlerContainer tt) in
  fst r = [10%N; 11%N; 12%N] /\
  StronglySorted N.lt (fst r) /\
  NoDup (fst r) /\
  Forall (fun i => i <> 0%N) (fst r) /\
  NoDup (stackIDs (snd r)).
Proof.
  pose proof (ids_increase_below_wrap tt goGrow goGrow someOps eq_refl) as Hids.
  cbv zeta in Hids. destruct Hids as (_ & Hexact & Hsorted & Hnodup & Hnonzero & Hstack).
  cbv zeta. split; [|done]. exact Hexact.
Defined.

(** * Further properties *)

(** ** The container *)

Section MoreProperties.

Context {Request Response U : Type}.
Variable zero : Response.
Variable growInfos growHandlers : nat -> nat -> nat.

Abbreviation HC := (HandlerContainer Request Response U).
Abbreviation IH := (identifiedHandler Request Response U).

(** What [Add] does to the stack, by the three ways it can go. *)
Lemma Add_stack (hc : HC) h options :
  let b := buildAddOptions options in
  let new := mkIdentified h (mkInfo (nextID hc) (name b)) in
  stack (snd (Add zero growInfos growHandlers hc h options)) =
  match (if decide (swapID b <> 0%N)
         then slices_IndexFunc (stack hc) (fun e => ID (info e) = swapID b)
         else None) with
  | Some idx => mkSliceOf (<[idx := new]> (elems (stack hc))) (capacity (stack hc))
  | None => if last b
            then snd (slices_Insert0 growHandlers (stack hc) new)
            else slice_append growHandlers (stack hc) new
  end.
Proof.
  intros b new. unfold Add. fold b. fold new.
  destruct (if decide (swapID b <> 0%N) then _ else None); [done|].
  by destruct (last b).
Qed.

Lemma swap_misses (hc : HC) (t : HandlerID) :
  t = 0%N \/ t ∉ stackIDs hc ->
  (if decide (t <> 0%N)
   then slices_IndexFunc (stack hc) (fun e => ID (info e) = t)
   else None) = None.
Proof.
  intros [->|Habs]; [done|]. case_decide; [|done].
  unfold slices_IndexFunc.
  assert (list_find (fun e : IH => ID (info e) = t) (elems (stack hc)) = None) as ->; [|done].
  apply list_find_None, Forall_forall. intros e He Heq. apply Habs.
  unfold stackIDs. apply list_elem_of_fmap. by exists e.
Qed.

(** X1. In every reachable container the cached callables are the
    compilation of the stack as it is now, whatever additions, swaps and
    removals led to it: the newest entry is the outermost frame and the
    no-op is under the oldest. *)
Theorem cache_is_compiled_stack (hc : HC) :
  Reachable zero growInfos growHandlers hc ->
  HC_Validate hc = validatorNewestFirst growInfos (reverse (elems (stack hc))) /\
  HC_Handle hc = chainNewestFirst zero growInfos (reverse (elems (stack hc))).
Proof.
  intros Hr. destruct (Reachable_cache zero growInfos growHandlers hc Hr) as [HV HH].
  unfold HC_Validate, HC_Handle. rewrite HV, HH, compile_newest_first. done.
Qed.

(** X2. A reachable container whose stack is empty, a new one or one
    whose handlers were all removed, answers [Handle] with the zero response
    and no error and [Validate] with no error, and leaves the state as it
    is. *)
Theorem empty_container_is_noop (hc : HC) cx msg w :
  Reachable zero growInfos growHandlers hc ->
  elems (stack hc) = [] ->
  HC_Handle hc cx msg w = ((zero, None), w) /\
  HC_Validate hc cx msg w = (None, w).
Proof.
  intros Hr Hempty. destruct (Reachable_cache zero growInfos growHandlers hc Hr) as [HV HH].
  unfold HC_Validate, HC_Handle. by rewrite HV, HH, Hempty.
Qed.

Lemma Add_counter (hc : HC) h options id :
  let r := Add zero growInfos growHandlers hc h options in
  fst r = nextID hc /\
  nextID (snd r) = ((nextID hc + 1) mod 2 ^ 64)%N /\
  nextID (Remove zero growInfos hc id) = nextID hc.
Proof.
  intros r. unfold r, Add.
  destruct (if decide (swapID (buildAddOptions options) <> 0%N) then _ else None);
    [|destruct (last (buildAddOptions options))]; done.
Qed.

Lemma Add_appends_elems (hc : HC) h options :
  last (buildAddOptions options) = false ->
  swapID (buildAddOptions options) = 0%N \/
    swapID (buildAddOptions options) ∉ stackIDs hc ->
  elems (stack (snd (Add zero growInfos growHandlers hc h options))) =
  elems (stack hc) ++
    [mkIdentified h (mkInfo (nextID hc) (name (buildAddOptions options)))].
Proof.
  intros Hlast Hmiss. rewrite Add_stack. cbv zeta.
  rewrite (swap_misses hc _ Hmiss), Hlast. apply elems_slice_append.
Qed.

(** X3. [Add] returns the value of the counter and makes the counter one
    more, modulo [2^64], whatever its options are and also when it swaps;
    [Remove] leaves the counter alone. *)
Theorem Add_takes_next_id (hc : HC) h options id :
  let r := Add zero growInfos growHandlers hc h options in
  fst r = nextID hc /\
  nextID (snd r) = ((nextID hc + 1) mod 2 ^ 64)%N /\
  nextID (Remove zero growInfos hc id) = nextID hc.
Proof. apply Add_counter. Qed.

(** X4. Without the last option, and with no swap target or one that no
    handler of the container has, [Add] appends: the stack is the one
    before followed by the new handler, which carries the returned ID and
    the name of the options. *)
Theorem Add_appends (hc : HC) h options :
  last (buildAddOptions options) = false ->
  swapID (buildAddOptions options) = 0%N \/
    swapID (buildAddOptions options) ∉ stackIDs hc ->
  elems (stack (snd (Add zero growInfos growHandlers hc h options))) =
  elems (stack hc) ++
    [mkIdentified h (mkInfo (nextID hc) (name (buildAddOptions options)))].
Proof. apply Add_appends_elems. Qed.

(** X5. With the last option, and no swap taking place, the stack keeps
    its length: it stays as it is when it is empty or its array is full,
    and otherwise the new handler is at the head and the entry at the end
    is no longer shown. *)
Theorem Add_last_effect (hc : HC) h options :
  last (buildAddOptions options) = true ->
  swapID (buildAddOptions options) = 0%N \/
    swapID (buildAddOptions options) ∉ stackIDs hc ->
  let old := elems (stack hc) in
  let new := mkIdentified h (mkInfo (nextID hc) (name (buildAddOptions options))) in
  let now := elems (stack (snd (Add zero growInfos growHandlers hc h options))) in
  length now = length old /\
  (old = [] \/ capacity (stack hc) < length old + 1 -> now = old) /\
  (old <> [] -> length old + 1 <= capacity (stack hc) ->
   now = new :: take (length old - 1) old).
Proof.
  intros Hlast Hmiss old new now.
  assert (Hnow : now = elems (snd (slices_Insert0 growHandlers (stack hc) new))).
  { unfold now. rewrite Add_stack. cbv zeta. by rewrite (swap_misses hc _ Hmiss), Hlast. }
  rewrite Hnow. unfold slices_Insert0. fold old.
  split; [|split].
  - repeat case_decide; cbn [snd elems]; try done.
    rewrite length_take. cbn [length]. lia.
  - intros [Hold|Hfull].
    + rewrite decide_True by by rewrite Hold. done.
    + case_decide; [done|]. by rewrite decide_True by lia.
  - intros Hne Hroom.
    rewrite decide_False by (by destruct old).
    rewrite decide_False by lia. cbn [snd elems].
    destruct old as [|x old']; [done|]. cbn [length].
    replace (S (length old') - 1) with (length old') by lia. done.
Qed.

(** X6. After [Remove] no entry of the stack has the removed ID; the
    entries are the ones with another ID, in the order they had; and the
    capacity is the one before. *)
Theorem Remove_deletes_by_id (hc : HC) id :
  let hc' := Remove zero growInfos hc id in
  (id ∉ stackIDs hc') /\
  (forall e, e ∈ elems (stack hc') <-> e ∈ elems (stack hc) /\ ID (info e) <> id) /\
  elems (stack hc') `sublist_of` elems (stack hc) /\
  capacity (stack hc') = capacity (stack hc).
Proof.
  intros hc'. unfold hc', Remove, slices_DeleteFunc, buildHandlers, stackIDs.
  cbn [stack elems capacity].
  split; [|split; [|split]].
  - intros Hin. apply list_elem_of_fmap in Hin as (e & He & Hin).
    apply list_elem_of_filter in Hin as [Hne _]. by apply Hne.
  - intros e. rewrite list_elem_of_filter. tauto.
  - apply sublist_filter.
  - done.
Qed.

(** X7. Removing an ID twice is removing it once, and two removals give
    the same container in either order. *)
Theorem Remove_idempotent_commutes (hc : HC) a b :
  Remove zero growInfos (Remove zero growInfos hc a) a = Remove zero growInfos hc a /\
  Remove zero growInfos (Remove zero growInfos hc a) b =
  Remove zero growInfos (Remove zero growInfos hc b) a.
Proof.
  unfold Remove, slices_DeleteFunc, buildHandlers. cbn [stack elems capacity nextID].
  split.
  - rewrite list_filter_filter.
    rewrite (list_filter_iff _ (fun e : IH => ID (info e) <> a)); [done|]. tauto.
  - rewrite !list_filter_filter.
    rewrite (list_filter_iff _ (fun e : IH => ID (info e) <> a /\ ID (info e) <> b));
      [done|]. tauto.
Qed.

(** X8. In a reachable container none of whose handlers has the ID the
    counter stands at, appending a handler by [Add] and removing the returned
    ID brings back the stack, and with it [Validate] and [Handle]. *)
Theorem Add_then_Remove_restores (hc : HC) h options :
  Reachable zero growInfos growHandlers hc ->
  nextID hc ∉ stackIDs hc ->
  last (buildAddOptions options) = false ->
  swapID (buildAddOptions options) = 0%N \/
    swapID (buildAddOptions options) ∉ stackIDs hc ->
  let r := Add zero growInfos growHandlers hc h options in
  let hc' := Remove zero growInfos (snd r) (fst r) in
  elems (stack hc') = elems (stack hc) /\
  HC_Validate hc' = HC_Validate hc /\
  HC_Handle hc' = HC_Handle hc.
Proof.
  intros Hr Hfresh Hlast Hmiss r hc'.
  assert (Hel : elems (stack hc') = elems (stack hc)).
  { unfold hc', Remove, slices_DeleteFunc, buildHandlers. cbn [stack elems].
    unfold r. rewrite (Add_appends_elems hc h options Hlast Hmiss).
    destruct (Add_counter hc h options 0%N) as (-> & _ & _).
    rewrite filter_app, filter_cons_False, filter_nil, app_nil_r
      by (cbn; intros Hne; by apply Hne).
    apply filter_nothing, Forall_forall. intros e He Heq. apply Hfresh.
    unfold stackIDs. apply list_elem_of_fmap. by exists e. }
  split; [done|].
  assert (Hr' : Reachable zero growInfos growHandlers hc')
    by by apply reach_remove, reach_add.
  destruct (Reachable_cache zero growInfos growHandlers hc Hr) as [HV HH].
  destruct (Reachable_cache zero growInfos growHandlers hc' Hr') as [HV' HH'].
  unfold HC_Validate, HC_Handle. by rewrite HV, HH, HV', HH', Hel.
Qed.


Lemma fold_last (opts : list AddOption) (b : builtAddOptions) :
  last (fold_left applyOption opts b) = true <-> last b = true \/ AddOptionLast ∈ opts.
Proof.
  revert b. induction opts as [|o opts IHo]; intros b; cbn [fold_left].
  - rewrite elem_of_nil. tauto.
  - rewrite IHo, elem_of_cons. destruct o; cbn [applyOption last]; intuition congruence.
Qed.

Lemma fold_name_kept (opts : list AddOption) (b : builtAddOptions) :
  Forall (fun o => forall n, o <> AddOptionName n) opts ->
  name (fold_left applyOption opts b) = name b.
Proof.
  revert b. induction opts as [|o opts IHo]; intros b Hall; [done|].
  apply Forall_cons in Hall as [Ho Hall]. cbn [fold_left]. rewrite (IHo _ Hall).
  destruct o; [by destruct (Ho n)|done|done].
Qed.

Lemma fold_swap_kept (opts : list AddOption) (b : builtAddOptions) :
  Forall (fun o => forall id, o <> AddOptionSwap id) opts ->
  swapID (fold_left applyOption opts b) = swapID b.
Proof.
  revert b. induction opts as [|o opts IHo]; intros b Hall; [done|].
  apply Forall_cons in Hall as [Ho Hall]. cbn [fold_left]. rewrite (IHo _ Hall).
  destruct o; [done|by destruct (Ho id)|done].
Qed.

(** X9. Of the options of one call, the last flag is set exactly when
    [AddOptionLast] is among them; the name and the swap target are those of
    the last option that gives one, and are empty and zero when none
    does. *)
Theorem buildAddOptions_later_wins (opts : list AddOption) :
  (last (buildAddOptions opts) = true <-> AddOptionLast ∈ opts) /\
  (forall pre n post,
     opts = pre ++ AddOptionName n :: post ->
     Forall (fun o => forall m, o <> AddOptionName m) post ->
     name (buildAddOptions opts) = n) /\
  (forall pre id post,
     opts = pre ++ AddOptionSwap id :: post ->
     Forall (fun o => forall t, o <> AddOptionSwap t) post ->
     swapID (buildAddOptions opts) = id) /\
  (Forall (fun o => forall m, o <> AddOptionName m) opts ->
   name (buildAddOptions opts) = EmptyString) /\
  (Forall (fun o => forall t, o <> AddOptionSwap t) opts ->
   swapID (buildAddOptions opts) = 0%N).
Proof.
  unfold buildAddOptions. split; [|split; [|split; [|split]]].
  - rewrite fold_last. cbn [last]. intuition congruence.
  - intros pre n post -> Hpost. rewrite fold_left_app. cbn [fold_left].
    by rewrite fold_name_kept.
  - intros pre id post -> Hpost. rewrite fold_left_app. cbn [fold_left].
    by rewrite fold_swap_kept.
  - intros Hall. by rewrite fold_name_kept.
  - intros Hall. by rewrite fold_swap_kept.
Qed.

(** X10. Two calls of [Add] whose options agree on the swap target and on
    the last flag, so differ in the name at most, return the same ID and
    leave the same IDs and handlers at the same positions. *)
Theorem position_ignores_name (hc : HC) h options options' :
  swapID (buildAddOptions options) = swapID (buildAddOptions options') ->
  last (buildAddOptions options) = last (buildAddOptions options') ->
  let r := Add zero growInfos growHandlers hc h options in
  let r' := Add zero growInfos growHandlers hc h options' in
  fst r = fst r' /\
  nextID (snd r) = nextID (snd r') /\
  stackIDs (snd r) = stackIDs (snd r') /\
  handler <$> elems (stack (snd r)) = handler <$> elems (stack (snd r')) /\
  capacity (stack (snd r)) = capacity (stack (snd r')).
Proof.
  intros Hswap Hlast r r'.
  destruct (Add_counter hc h options 0%N) as (Hid & Hnext & _).
  destruct (Add_counter hc h options' 0%N) as (Hid' & Hnext' & _).
  fold r in Hid, Hnext. fold r' in Hid', Hnext'.
  split; [congruence|]. split; [congruence|].
  unfold stackIDs, r, r'. rewrite !Add_stack. cbv zeta. rewrite <- Hswap, <- Hlast.
  destruct (if decide (swapID (buildAddOptions options) <> 0%N) then _ else None) as [idx|];
    [|destruct (last (buildAddOptions options))].
  - cbn [elems capacity]. by rewrite !list_fmap_insert.
  - unfold slices_Insert0, slice_append.
    repeat case_decide; cbn [snd elems capacity]; rewrite ?fmap_take; done.
  - unfold slice_append. repeat case_decide; cbn [elems capacity]; rewrite ?fmap_app; done.
Qed.

(** X11. Every error [Handle] returns on a reachable container takes
    part in [ErrHandle], and every error [Validate] returns takes part in
    [ErrValidate]. *)
Theorem errors_come_tagged (hc : HC) cx msg w :
  Reachable zero growInfos growHandlers hc ->
  (forall e, snd (fst (HC_Handle hc cx msg w)) = Some e ->
             errors_Is (Some e) (Some ErrHandle) = true) /\
  (forall e, fst (HC_Validate hc cx msg w) = Some e ->
             errors_Is (Some e) (Some ErrValidate) = true).
Proof.
  intros Hr. destruct (Reachable_cache zero growInfos growHandlers hc Hr) as [HV HH].
  unfold HC_Handle, HC_Validate. rewrite HV, HH. split; intros e He.
  - pose proof (handler_chain_tagged zero growInfos (elems (stack hc)) cx msg w) as Htag.
    by rewrite He in Htag.
  - pose proof (validator_chain_tagged zero growInfos (elems (stack hc)) cx msg w) as Htag.
    by rewrite He in Htag.
Qed.

(** X12. When every handler of a reachable container returns what its
    continuation returns, [Handle] returns the zero response and no error,
    and [Validate] no error. *)
Theorem all_call_through_gives_zero (hc : HC) cx msg w :
  Reachable zero growInfos growHandlers hc ->
  (Forall (fun a => handleCallsThrough (handler a)) (elems (stack hc)) ->
   exists w', HC_Handle hc cx msg w = ((zero, None), w')) /\
  (Forall (fun a => validateCallsThrough (handler a)) (elems (stack hc)) ->
   exists w', HC_Validate hc cx msg w = (None, w')).
Proof.
  intros Hr. destruct (Reachable_cache zero growInfos growHandlers hc Hr) as [HV HH].
  unfold HC_Handle, HC_Validate. rewrite HV, HH. split; intros Hall.
  - destruct (handler_frames_call_through zero growInfos (elems (stack hc)) [] Hall cx msg w)
      as (cx' & msg' & w0 & Hres).
    exists w0. by rewrite <- (app_nil_l (elems (stack hc))), Hres.
  - destruct (validator_frames_call_through zero growInfos (elems (stack hc)) [] Hall cx msg w)
      as (cx' & msg' & w0 & Hres).
    exists w0. by rewrite <- (app_nil_l (elems (stack hc))), Hres.
Qed.

(** X13. A newest handler that makes no use of its continuation decides
    alone: two reachable containers that have it as newest entry return the
    same from [Handle], whatever the older handlers are. *)
Theorem newest_handler_decides (hc hc' : HC) older older' (h : IH) :
  Reachable zero growInfos growHandlers hc ->
  Reachable zero growInfos growHandlers hc' ->
  elems (stack hc) = older ++ [h] ->
  elems (stack hc') = older' ++ [h] ->
  (forall ctx request next next' w,
     Handle (handler h) ctx request next w = Handle (handler h) ctx request next' w) ->
  forall cx msg w, HC_Handle hc cx msg w = HC_Handle hc' cx msg w.
Proof.
  intros Hr Hr' Hst Hst' Hdeaf cx msg w.
  destruct (Reachable_cache zero growInfos growHandlers hc Hr) as [_ HH].
  destruct (Reachable_cache zero growInfos growHandlers hc' Hr') as [_ HH'].
  unfold HC_Handle. rewrite HH, HH', Hst, Hst', !compile_snoc. cbn [snd].
  unfold curriedHandler.
  destruct (contextWithHandlerInfo growInfos cx (info h) (heap w)) as [ctx' hp].
  by rewrite (Hdeaf ctx' msg _ (snd (compile zero growInfos older'))).
Qed.


(** X18. When the newest handler returns no error, [Handle] returns its
    response, no error and its state, unchanged. *)
Theorem success_passes_unchanged (hc : HC) older (h : IH) cx msg w out w' :
  Reachable zero growInfos growHandlers hc ->
  elems (stack hc) = older ++ [h] ->
  (let entry := contextWithHandlerInfo growInfos cx (info h) (heap w) in
   Handle (handler h) (fst entry) msg (snd (compile zero growInfos older))
          (mkWorld (snd entry) (user w)) = ((out, None), w')) ->
  HC_Handle hc cx msg w = ((out, None), w').
Proof.
  intros Hr Hst Hcall.
  destruct (Reachable_cache zero growInfos growHandlers hc Hr) as [_ HH].
  unfold HC_Handle. rewrite HH, Hst, compile_snoc. cbn [snd]. unfold curriedHandler.
  destruct (contextWithHandlerInfo growInfos cx (info h) (heap w)) as [ctx' hp].
  simpl in Hcall. by rewrite Hcall.
Qed.

End MoreProperties.

(** X19. The two categories do not mix: an error wrapped for [Handle]
    takes part in [ErrValidate] exactly when the wrapped error does, and the
    other way round, and neither sentinel takes part in the other. *)
Theorem categories_do_not_mix (i : HandlerInfo) (E : goerror) :
  errors_Is (Some (Errorf_handler ErrHandle i E)) (Some ErrValidate) =
    errors_Is (Some E) (Some ErrValidate) /\
  errors_Is (Some (Errorf_handler ErrValidate i E)) (Some ErrHandle) =
    errors_Is (Some E) (Some ErrHandle) /\
  errors_Is (Some ErrHandle) (Some ErrValidate) = false /\
  errors_Is (Some ErrValidate) (Some ErrHandle) = false.
Proof.
  repeat split.
  - cbn [errors_Is]. unfold Errorf_handler. rewrite is_wrapErrors2.
    cbn [goerror_eqb ErrValidate]. by rewrite andb_false_r, orb_false_r.
  - cbn [errors_Is]. unfold Errorf_handler. rewrite is_wrapErrors2.
    cbn [goerror_eqb ErrHandle]. by rewrite andb_false_r, orb_false_r.
Qed.

(** ** Stacks of contexts *)

Lemma view_length (h : Heap) s : wfSlice h s -> length (view h s) = len s.
Proof.
  intros (cells & Hcells & Hlen & _). unfold view. rewrite Hcells. cbn.
  rewrite length_take. lia.
Qed.

Lemma Get_WithValue parent s :
  GetHandlerInfoFromContext (WithValue parent ctxKey (anyInfos s)) = s.
Proof. reflexivity. Qed.

Lemma Value_WithValue parent s :
  Value (WithValue parent ctxKey (anyInfos s)) ctxKey = Some (anyInfos s).
Proof. reflexivity. Qed.

(** The three things an extension can do, with what the child holds. *)
Lemma extension_cases grow parent info (h : Heap) :
  wfCtx h parent ->
  let e := contextWithHandlerInfo grow parent info h in
  exists s',
    fst e = WithValue parent ctxKey (anyInfos s') /\
    wfSlice (snd e) s' /\
    view (snd e) s' = ctxStack h parent ++ [info] /\
    ((exists cells, snd e = h ++ [cells] /\ ptr s' = length h) \/
     (exists s cells, Value parent ctxKey = Some (anyInfos s) /\
        h !! ptr s = Some cells /\ len s < length cells /\
        ptr s' = ptr s /\ len s' = S (len s) /\
        snd e = alter (fun c => <[len s := info]> c) (ptr s) h)).
Proof.
  intros Hwf e. unfold e, contextWithHandlerInfo, ctxStack, GetHandlerInfoFromContext.
  unfold wfCtx in Hwf.
  destruct (Value parent ctxKey) as [[s|v]|] eqn:HV.
  - destruct Hwf as (cells & Hcells & Hlen & Hcap). unfold append.
    case_decide as Hroom.
    + cbn [fst snd]. eexists. split; [done|].
      assert (Hlt : len s < length cells) by (specialize (Hcap Hroom); lia).
      split; [|split].
      * exists (<[len s := info]> cells). cbn [ptr len cap].
        rewrite list_lookup_alter_eq, Hcells. split; [done|].
        rewrite length_insert. split; [lia|]. intros. apply Hcap. lia.
      * by apply (view_written h s cells).
      * right. by exists s, cells.
    + cbn [alloc fst snd]. eexists. split; [done|].
      assert (Hv : length (view h s) = len s).
      { apply view_length. by exists cells. }
      split; [|split].
      * eexists. cbn [ptr len cap]. rewrite lookup_alloc. split; [done|].
        rewrite length_app. cbn [length]. rewrite length_replicate, Hv. lia.
      * unfold view at 1. cbn [ptr len]. rewrite lookup_alloc. cbn.
        rewrite <- Hv at 1. rewrite cons_middle, app_assoc.
        rewrite take_app_length'; [done|]. rewrite length_app. cbn. lia.
      * left. eexists. done.
  - cbn [literal1 alloc fst snd]. eexists. split; [done|]. split; [|split].
    + eexists. cbn [ptr len cap]. rewrite lookup_alloc. split; [done|]. cbn. lia.
    + unfold view. cbn [ptr len]. by rewrite lookup_alloc.
    + left. eexists. done.
  - cbn [literal1 alloc fst snd]. eexists. split; [done|]. split; [|split].
    + eexists. cbn [ptr len cap]. rewrite lookup_alloc. split; [done|]. cbn. lia.
    + unfold view. cbn [ptr len]. by rewrite lookup_alloc.
    + left. eexists. done.
Qed.

(** A slice covered by the parent is left as it is by an extension, and is
    covered by the child. *)
Lemma extension_keeps_covered grow parent info (h : Heap) s :
  wfCtx h parent ->
  wfSlice h s ->
  coveredBy s parent ->
  let e := contextWithHandlerInfo grow parent info h in
  view (snd e) s = view h s /\ wfSlice (snd e) s /\ coveredBy s (fst e).
Proof.
  intros Hwf Hs Hcov e.
  destruct (extension_cases grow parent info h Hwf) as (s' & He1 & Hwf' & _ & Hhow).
  fold e in He1, Hwf', Hhow. rewrite He1. unfold coveredBy. rewrite Value_WithValue.
  destruct Hs as (cells & Hcells & Hlen & Hcap).
  assert (Hvalid : ptr s < length h) by by eapply lookup_lt_Some.
  destruct Hhow as [(new & -> & Hptr)|(sp & pcells & HV & Hpcells & Hplen & Hptr & Hlen' & ->)].
  - split; [|split].
    + unfold view. by rewrite lookup_app_l.
    + exists cells. by rewrite lookup_app_l.
    + intros Heq. lia.
  - unfold coveredBy in Hcov. rewrite HV in Hcov.
    destruct (decide (ptr s = ptr sp)) as [Heq|Hne].
    + specialize (Hcov Heq). rewrite Heq in Hcells.
      assert (pcells = cells) as -> by congruence.
      split; [|split].
      * unfold view. rewrite Heq, list_lookup_alter_eq, Hcells. cbn.
        by rewrite take_insert_ge.
      * exists (<[len sp := info]> cells).
        rewrite Heq, list_lookup_alter_eq, Hcells, length_insert. done.
      * intros _. lia.
    + split; [|split].
      * unfold view. by rewrite list_lookup_alter_ne.
      * exists cells. by rewrite list_lookup_alter_ne.
      * intros Heq. congruence.
Qed.

(** X14. Extending a context whose stack is in order gives a child that
    shows the parent's stack with the info appended, leaves the stack the
    parent shows as it was, and keeps both stacks in order. *)
Theorem extension_appends_and_spares_parent grow parent info (h : Heap) :
  wfCtx h parent ->
  let e := contextWithHandlerInfo grow parent info h in
  ctxStack (snd e) (fst e) = ctxStack h parent ++ [info] /\
  ctxStack (snd e) parent = ctxStack h parent /\
  wfCtx (snd e) (fst e) /\
  wfCtx (snd e) parent.
Proof.
  intros Hwf e.
  destruct (extension_cases grow parent info h Hwf) as (s' & He1 & Hwf' & Hview & _).
  fold e in He1, Hwf', Hview.
  pose proof Hwf as Hs. unfold wfCtx in Hs.
  split; [|split; [|split]].
  - unfold ctxStack at 1. by rewrite He1, Get_WithValue.
  - unfold ctxStack, GetHandlerInfoFromContext.
    destruct (Value parent ctxKey) as [[s|v]|] eqn:HV; try done.
    apply (extension_keeps_covered grow parent info h s Hwf Hs).
    unfold coveredBy. by rewrite HV.
  - unfold wfCtx. by rewrite He1, Value_WithValue.
  - unfold wfCtx. destruct (Value parent ctxKey) as [[s|v]|] eqn:HV; try done.
    apply (extension_keeps_covered grow parent info h s Hwf Hs).
    unfold coveredBy. by rewrite HV.
Qed.

(** X15. Extending a context changes no stack that lies in another array
    than the parent's or is no longer than the parent's. *)
Theorem extension_spares_other_stacks grow parent info (h : Heap) s :
  wfCtx h parent ->
  wfSlice h s ->
  coveredBy s parent ->
  let e := contextWithHandlerInfo grow parent info h in
  view (snd e) s = view h s.
Proof. intros Hwf Hs Hcov e. by apply extension_keeps_covered. Qed.

Lemma enterAll_stack grow infos ctx (h : Heap) :
  wfCtx h ctx ->
  let e := enterAll grow infos (ctx, h) in
  ctxStack (snd e) (fst e) = ctxStack h ctx ++ infos /\ wfCtx (snd e) (fst e).
Proof.
  revert ctx h. induction infos as [|i infos IHi]; intros ctx h Hwf.
  - cbn. by rewrite app_nil_r.
  - destruct (extension_cases grow ctx i h Hwf) as (s' & He1 & Hwf' & Hview & _).
    change (enterAll grow (i :: infos) (ctx, h)) with
      (enterAll grow infos (contextWithHandlerInfo grow ctx i h)).
    destruct (contextWithHandlerInfo grow ctx i h) as [c1 h1] eqn:Hext.
    cbn [fst snd] in *. subst c1.
    destruct (IHi (WithValue ctx ctxKey (anyInfos s')) h1) as (Hstack & Hwf1).
    { unfold wfCtx. by rewrite Value_WithValue. }
    cbv zeta. rewrite Hstack. split; [|done].
    unfold ctxStack at 1. rewrite Get_WithValue, Hview, <- app_assoc. done.
Qed.

Lemma enterAll_covered grow infos ctx (h : Heap) s :
  wfCtx h ctx ->
  wfSlice h s ->
  coveredBy s ctx ->
  view (snd (enterAll grow infos (ctx, h))) s = view h s.
Proof.
  revert ctx h. induction infos as [|i infos IHi]; intros ctx h Hwf Hs Hcov; [done|].
  destruct (extension_cases grow ctx i h Hwf) as (s' & He1 & Hwf' & _ & _).
  destruct (extension_keeps_covered grow ctx i h s Hwf Hs Hcov) as (Hview & Hs1 & Hcov1).
  change (enterAll grow (i :: infos) (ctx, h)) with
    (enterAll grow infos (contextWithHandlerInfo grow ctx i h)).
  destruct (contextWithHandlerInfo grow ctx i h) as [c1 h1] eqn:Hext.
  cbn [fst snd] in *. subst c1.
  rewrite IHi; [done| |done|done].
  unfold wfCtx. by rewrite Value_WithValue.
Qed.

(** X16. Extensions made one inside the other stack up: the innermost
    context shows the stack of the starting context followed by the infos in
    the order they were entered, and the starting context shows what it
    showed. *)
Theorem nested_extensions_stack_up grow infos ctx (h : Heap) :
  wfCtx h ctx ->
  let e := enterAll grow infos (ctx, h) in
  ctxStack (snd e) (fst e) = ctxStack h ctx ++ infos /\
  ctxStack (snd e) ctx = ctxStack h ctx.
Proof.
  intros Hwf e. split; [by apply enterAll_stack|].
  unfold ctxStack, GetHandlerInfoFromContext.
  pose proof Hwf as Hs. unfold wfCtx in Hs.
  destruct (Value ctx ctxKey) as [[s|v]|] eqn:HV; try done.
  apply enterAll_covered; [done|done|]. unfold coveredBy. by rewrite HV.
Qed.

Lemma observers_chain {Request Response : Type} (zero : Response) growInfos
  (l : list (identifiedHandler Request Response (list (Context * list HandlerInfo)))) :
  Forall (fun a => handler a = observer) l ->
  forall cx msg w,
    wfCtx (heap w) cx ->
    exists h' entries,
      snd (compile zero growInfos l) cx msg w =
        ((zero, None), mkWorld h' (user w ++ entries)) /\
      snd <$> entries = stacksSeen (ctxStack (heap w) cx) (info <$> reverse l) /\
      Forall (fun seen => ctxStack h' (fst seen) = snd seen) entries /\
      (forall s, wfSlice (heap w) s -> coveredBy s cx ->
                 view h' s = view (heap w) s /\ wfSlice h' s).
Proof.
  induction l as [|a l IHl] using rev_ind; intros Hall cx msg w Hwf.
  - exists (heap w), []. destruct w as [h u]. cbn. rewrite app_nil_r. by repeat split.
  - apply Forall_app in Hall as [Hall Ha]. rewrite Forall_singleton in Ha.
    rewrite compile_snoc, reverse_snoc, fmap_cons. cbn [snd stacksSeen].
    unfold curriedHandler. rewrite Ha.
    destruct (extension_cases growInfos cx (info a) (heap w) Hwf)
      as (s' & He1 & Hwf' & Hview & _).
    pose proof (fun s => extension_keeps_covered growInfos cx (info a) (heap w) s Hwf)
      as Hframe.
    destruct (contextWithHandlerInfo growInfos cx (info a) (heap w)) as [ctx' hp].
    cbn [fst snd] in He1, Hwf', Hview, Hframe. subst ctx'.
    cbn [observer Handle heap user].
    rewrite Get_WithValue, Hview.
    set (w1 := mkWorld hp (user w ++ [(WithValue cx ctxKey (anyInfos s'),
                                       ctxStack (heap w) cx ++ [info a])])).
    destruct (IHl Hall (WithValue cx ctxKey (anyInfos s')) msg w1)
      as (h' & entries & Hres & Hseen & Hafter & Hkeep).
    { unfold wfCtx. by rewrite Value_WithValue. }
    rewrite Hres. cbn [heap user w1] in *.
    exists h', ((WithValue cx ctxKey (anyInfos s'), ctxStack (heap w) cx ++ [info a])
                :: entries).
    split; [by rewrite <- app_assoc|]. split; [|split].
    + rewrite fmap_cons. cbn [snd]. f_equal.
      rewrite Hseen. unfold ctxStack at 1. by rewrite Get_WithValue, Hview.
    + constructor; [|done]. cbn [fst snd]. unfold ctxStack at 1.
      rewrite Get_WithValue.
      destruct (Hkeep s' Hwf') as [-> _]; [|done].
      unfold coveredBy. rewrite Value_WithValue. lia.
    + intros s Hs Hcov. destruct (Hframe s Hs Hcov) as (Hv & Hs1 & Hcov1).
      destruct (Hkeep s Hs1 Hcov1) as [Hv' Hs']. by rewrite Hv', Hv.
Qed.

(** X17. In a reachable container all of whose handlers keep their context
    and call their continuation, a call of [Handle] shows the handlers, from
    the newest on, the caller's stack followed by the infos of the handlers
    entered so far; each kept context still shows that stack after the call;
    and the call returns the zero response and no error. *)
Theorem observers_see_their_stacks {Request Response : Type} (zero : Response)
  growInfos growHandlers
  (hc : HandlerContainer Request Response (list (Context * list HandlerInfo))) cx msg w :
  Reachable zero growInfos growHandlers hc ->
  Forall (fun a => handler a = observer) (elems (stack hc)) ->
  wfCtx (heap w) cx ->
  let res := HC_Handle hc cx msg w in
  exists entries,
    user (snd res) = user w ++ entries /\
    snd <$> entries =
      stacksSeen (ctxStack (heap w) cx) (info <$> reverse (elems (stack hc))) /\
    Forall (fun seen => ctxStack (heap (snd res)) (fst seen) = snd seen) entries /\
    fst res = (zero, None).
Proof.
  intros Hr Hall Hwf res.
  destruct (Reachable_cache zero growInfos growHandlers hc Hr) as [_ HH].
  destruct (observers_chain zero growInfos (elems (stack hc)) Hall cx msg w Hwf)
    as (h' & entries & Hres & Hseen & Hafter & _).
  exists entries. unfold res, HC_Handle. rewrite HH, Hres. done.
Qed.

(** ** The further properties at work *)

Lemma withA_Reachable : Reachable tt goGrow goGrow withA.
Proof. apply reach_add, reach_new. Qed.

Lemma parent3_wf : wfCtx (snd parent3) (fst parent3).
Proof.
  exists [infoFirst; infoSecond; infoThird; zeroInfo].
  split; [reflexivity|]. split; [|intros _]; vm_compute; lia.
Qed.

Lemma cache_is_compiled_stack_witness :
  HC_Validate errSwapped =
    validatorNewestFirst goGrow (reverse (elems (stack errSwapped))) /\
  HC_Handle errSwapped =
    chainNewestFirst EmptyString goGrow (reverse (elems (stack errSwapped))).
Proof.
  apply (cache_is_compiled_stack EmptyString goGrow goGrow errSwapped).
  apply errSwapped_Reachable.
Defined.

Lemma empty_container_is_noop_witness :
  HC_Handle emptied Background tt (mkWorld [] ["before"]) =
    ((tt, None), mkWorld [] ["before"]) /\
  HC_Validate emptied Background tt (mkWorld [] ["before"]) =
    (None, mkWorld [] ["before"]).
Proof.
  apply (empty_container_is_noop tt goGrow goGrow emptied).
  - apply reach_remove, withA_Reachable.
  - reflexivity.
Defined.

Lemma Add_appends_witness :
  elems (stack (snd (Add tt goGrow goGrow withA (namedTracer "b") [AddOptionName "b"]))) =
  elems (stack withA) ++ [mkIdentified (namedTracer "b") (mkInfo 11%N "b")].
Proof.
  apply (Add_appends tt goGrow goGrow withA (namedTracer "b") [AddOptionName "b"]).
  - reflexivity.
  - by left.
Defined.

Lemma Add_last_effect_witness :
  elems (stack (snd addLastB)) = elems (stack withA) /\
  elems (stack (snd addLastD)) =
    mkIdentified (namedTracer "d") (mkInfo 13%N EmptyString)
      :: take 2 (elems (stack threePlain)).
Proof.
  split.
  - pose proof (Add_last_effect tt goGrow goGrow withA (namedTracer "b")
                  [AddOptionLast; AddOptionName "b"] eq_refl (or_introl eq_refl)) as Hfull.
    cbv zeta in Hfull. destruct Hfull as (_ & Hfull & _).
    apply Hfull. right. vm_compute. lia.
  - pose proof (Add_last_effect tt goGrow goGrow threePlain (namedTracer "d")
                  [AddOptionLast] eq_refl (or_introl eq_refl)) as Hroom.
    cbv zeta in Hroom. destruct Hroom as (_ & _ & Hroom).
    apply Hroom; [discriminate|]. vm_compute. lia.
Defined.

Lemma Add_then_Remove_restores_witness :
  let r := Add tt goGrow goGrow withA (namedTracer "b") [AddOptionName "b"] in
  let hc' := Remove tt goGrow (snd r) (fst r) in
  elems (stack hc') = elems (stack withA) /\
  HC_Validate hc' = HC_Validate withA /\
  HC_Handle hc' = HC_Handle withA.
Proof.
  apply (Add_then_Remove_restores tt goGrow goGrow withA (namedTracer "b")
           [AddOptionName "b"]).
  - apply withA_Reachable.
  - change (stackIDs withA) with [10%N]. change (nextID withA) with 11%N.
    intros Hin. apply list_elem_of_singleton in Hin. discriminate.
  - reflexivity.
  - by left.
Defined.

Lemma buildAddOptions_later_wins_witness :
  last (buildAddOptions mixedOptions) = true /\
  name (buildAddOptions mixedOptions) = "y" /\
  swapID (buildAddOptions mixedOptions) = 3%N /\
  name (buildAddOptions [AddOptionLast]) = EmptyString /\
  swapID (buildAddOptions [AddOptionLast]) = 0%N.
Proof.
  destruct (buildAddOptions_later_wins mixedOptions) as (Hlast & Hname & Hswap & _ & _).
  destruct (buildAddOptions_later_wins [AddOptionLast]) as (_ & _ & _ & Hnoname & Hnoswap).
  split; [|split; [|split; [|split]]].
  - apply Hlast. unfold mixedOptions. rewrite !elem_of_cons. auto.
  - apply (Hname [AddOptionName "x"; AddOptionLast; AddOptionSwap 3%N] "y" []);
      [reflexivity|constructor].
  - apply (Hswap [AddOptionName "x"; AddOptionLast] 3%N [AddOptionName "y"]);
      [reflexivity|]. repeat constructor. discriminate.
  - apply Hnoname. repeat constructor. discriminate.
  - apply Hnoswap. repeat constructor. discriminate.
Defined.

Lemma position_ignores_name_witness :
  let r := Add tt goGrow goGrow threePlain (namedTracer "d") [AddOptionLast] in
  let r' := Add tt goGrow goGrow threePlain (namedTracer "d")
                [AddOptionName "z"; AddOptionLast] in
  fst r = fst r' /\
  nextID (snd r) = nextID (snd r') /\
  stackIDs (snd r) = stackIDs (snd r') /\
  handler <$> elems (stack (snd r)) = handler <$> elems (stack (snd r')) /\
  capacity (stack (snd r)) = capacity (stack (snd r')).
Proof.
  apply (position_ignores_name tt goGrow goGrow threePlain (namedTracer "d")
           [AddOptionLast] [AddOptionName "z"; AddOptionLast]); reflexivity.
Defined.

Lemma errors_come_tagged_witness :
  errors_Is (Some (Errorf_handler ErrHandle (mkInfo 11%N EmptyString) anError))
            (Some ErrHandle) = true /\
  errors_Is (Some (Errorf_handler ErrValidate (mkInfo 11%N EmptyString) anError))
            (Some ErrValidate) = true.
Proof.
  destruct (errors_come_tagged EmptyString goGrow goGrow errChain Background tt
              (mkWorld [] tt) errChain_Reachable) as [Hhandle Hvalidate].
  split.
  - apply Hhandle. reflexivity.
  - apply Hvalidate. reflexivity.
Defined.

Lemma all_call_through_gives_zero_witness :
  (exists w', HC_Handle onlyPassing Background tt (mkWorld [] tt) =
              ((EmptyString, None), w')) /\
  (exists w', HC_Validate onlyPassing Background tt (mkWorld [] tt) = (None, w')).
Proof.
  destruct (all_call_through_gives_zero EmptyString goGrow goGrow onlyPassing Background tt
              (mkWorld [] tt)) as [Hhandle Hvalidate].
  - apply addAll_Reachable, reach_new.
  - split.
    + apply Hhandle. repeat constructor; apply passing_calls_through.
    + apply Hvalidate. repeat constructor; apply passing_calls_through.
Defined.

Lemma newest_handler_decides_witness :
  HC_Handle answerOverPassing Background tt (mkWorld [] tt) =
  HC_Handle answerOverFailing Background tt (mkWorld [] tt).
Proof.
  apply (newest_handler_decides EmptyString goGrow goGrow
           answerOverPassing answerOverFailing
           [mkIdentified passing (mkInfo 10%N EmptyString)]
           [mkIdentified failing (mkInfo 10%N EmptyString)]
           (mkIdentified answering (mkInfo 11%N EmptyString))).
  - apply addAll_Reachable, reach_new.
  - apply addAll_Reachable, reach_new.
  - reflexivity.
  - reflexivity.
  - reflexivity.
Defined.

Lemma success_passes_unchanged_witness :
  HC_Handle answerOverFailing Background tt (mkWorld [] tt) =
  (("a", None), mkWorld [[mkInfo 11%N EmptyString]] tt).
Proof.
  apply (success_passes_unchanged EmptyString goGrow goGrow answerOverFailing
           [mkIdentified failing (mkInfo 10%N EmptyString)]
           (mkIdentified answering (mkInfo 11%N EmptyString))).
  - apply addAll_Reachable, reach_new.
  - reflexivity.
  - reflexivity.
Defined.

Lemma extension_appends_and_spares_parent_witness :
  let e := contextWithHandlerInfo goGrow (fst parent3) infoLeft (snd parent3) in
  ctxStack (snd e) (fst e) = ctxStack (snd parent3) (fst parent3) ++ [infoLeft] /\
  ctxStack (snd e) (fst parent3) = ctxStack (snd parent3) (fst parent3) /\
  wfCtx (snd e) (fst e) /\
  wfCtx (snd e) (fst parent3).
Proof.
  apply (extension_appends_and_spares_parent goGrow (fst parent3) infoLeft (snd parent3)).
  apply parent3_wf.
Defined.

Lemma extension_spares_other_stacks_witness :
  view (snd leftChild) (mkSlice 1 2 2) = view (snd parent3) (mkSlice 1 2 2).
Proof.
  apply (extension_spares_other_stacks goGrow (fst parent3) infoLeft (snd parent3)
           (mkSlice 1 2 2)).
  - apply parent3_wf.
  - exists [infoFirst; infoSecond]. split; [reflexivity|].
    split; [|intros _]; vm_compute; lia.
  - intros Hptr. discriminate.
Defined.

Lemma nested_extensions_stack_up_witness :
  let e := enterAll goGrow [infoLeft; infoRight] parent3 in
  ctxStack (snd e) (fst e) =
    ctxStack (snd parent3) (fst parent3) ++ [infoLeft; infoRight] /\
  ctxStack (snd e) (fst parent3) = ctxStack (snd parent3) (fst parent3).
Proof.
  apply (nested_extensions_stack_up goGrow [infoLeft; infoRight]
           (fst parent3) (snd parent3)).
  apply parent3_wf.
Defined.

Lemma observers_see_their_stacks_witness :
  let res := HC_Handle observers3 Background tt (mkWorld [] []) in
  exists entries,
    user (snd res) = [] ++ entries /\
    snd <$> entries =
      stacksSeen (ctxStack [] Background) (info <$> reverse (elems (stack observers3))) /\
    Forall (fun seen => ctxStack (heap (snd res)) (fst seen) = snd seen) entries /\
    fst res = (tt, None).
Proof.
  apply (observers_see_their_stacks tt goGrow goGrow observers3 Background tt
           (mkWorld [] [])).
  - apply addAll_Reachable, reach_new.
  - repeat constructor.
  - exact I.
Defined.
